(** * Tic-Tac-Toe front end: rules engine and game controller

    A shallow embedding of [src/tic_tac_toe_frontend/src/App.js]:
    - the rules engine ([calculateWinner], [computeAIMove]) as functions on
      lists of cells, and once more over a store of arrays, where the
      spread copy [[...board]] allocates and [copy[i] = mark] writes;
    - the [App] component as a transition system: event handlers and effects
      read the state of one render and queue setter calls, a commit runs the
      effects whose dependencies changed, and the delayed callback of the
      automated player is a pending timer. *)

From stdpp Require Import base numbers list gmap strings.

Local Open Scope nat_scope.

(** ** Data model *)

(** The two strings ["X"] and ["O"]. *)
Inductive Mark := X | O.

Global Instance Mark_eq_dec : EqDecision Mark.
Proof. solve_decision. Defined.

(** A square holds [null] or a mark. *)
Abbreviation Cell := (option Mark).

Abbreviation Squares := (list Cell).

(** [Array(9).fill(null)] *)
Definition emptyBoard : Squares := replicate 9 None.

(** [squares[i]].  Reading past the end gives [undefined], which like [null]
    is falsy and is never [===] to a mark; both are [None] here. *)
Definition sq (squares : Squares) (i : nat) : Cell :=
  match squares !! i with
  | Some c => c
  | None => None
  end.

(** JavaScript truthiness of a cell: only a mark is truthy. *)
Definition truthy (c : Cell) : bool :=
  match c with
  | Some _ => true
  | None => false
  end.

(** [arr[i] = v].  Inside the array one element is replaced; past the end
    JavaScript extends the array, the skipped positions reading as empty. *)
Definition js_set (arr : Squares) (i : nat) (v : Cell) : Squares :=
  if decide (i < length arr) then <[i:=v]> arr
  else arr ++ replicate (i - length arr) None ++ [v].

(** The [winner] field: a mark, or the string ["tie"]. *)
Inductive Winner := Wins (m : Mark) | TieGame.

Global Instance Winner_eq_dec : EqDecision Winner.
Proof. solve_decision. Defined.

(** The object [{ winner, line }] returned by [calculateWinner]. *)
Record Result := mkResult { winner : Winner; line : list nat }.

Global Instance Result_eq_dec : EqDecision Result.
Proof. solve_decision. Defined.

(** ** Rules engine *)

Definition Line := (nat * nat * nat)%type.

Definition lines : list Line :=
  [ (0, 1, 2); (3, 4, 5); (6, 7, 8);
    (0, 3, 6); (1, 4, 7); (2, 5, 8);
    (0, 4, 8); (2, 4, 6) ].

(** The test of the [for] loop of [calculateWinner] on one triple:
    [squares[a] && squares[a] === squares[b] && squares[a] === squares[c]]. *)
Definition line_won (squares : Squares) (l : Line) : bool :=
  let '(a, b, c) := l in
  truthy (sq squares a)
  && bool_decide (sq squares a = sq squares b)
  && bool_decide (sq squares a = sq squares c).

(** The loop [for (const [a, b, c] of lines)] with its early [return]. *)
Fixpoint scan_lines (squares : Squares) (ls : list Line) : option Result :=
  match ls with
  | [] => None
  | (a, b, c) :: rest =>
      match sq squares a with
      | Some m =>
          if line_won squares (a, b, c)
          then Some (mkResult (Wins m) [a; b; c])
          else scan_lines squares rest
      | None => scan_lines squares rest
      end
  end.

(** [calculateWinner]; [None] is the returned [null]. *)
Definition calculateWinner (squares : Squares) : option Result :=
  match scan_lines squares lines with
  | Some r => Some r
  | None =>
      if forallb truthy squares
      then Some (mkResult TieGame [])
      else None
  end.

(** [calculateWinner(copy)?.winner === m] *)
Definition winner_is (m : Mark) (r : option Result) : bool :=
  match r with
  | Some res => bool_decide (winner res = Wins m)
  | None => false
  end.

(** One of the two loops [for (let i = 0; i < 9; i++)] of [computeAIMove],
    run over the indices [idxs]: the first empty cell that wins for [m] once
    filled on a copy. *)
Fixpoint try_cells (board : Squares) (m : Mark) (idxs : list nat) : option nat :=
  match idxs with
  | [] => None
  | i :: rest =>
      if negb (truthy (sq board i)) then
        let copy := js_set board i (Some m) in
        if winner_is m (calculateWinner copy) then Some i
        else try_cells board m rest
      else try_cells board m rest
  end.

(** [xs.filter(i => !board[i])] *)
Definition empty_among (board : Squares) (xs : list nat) : list nat :=
  filter (λ i, truthy (sq board i) = false) xs.

(** [Math.floor(Math.random() * len)].  [Math.random()] lies in [0, 1), so
    the result is an integer below [len]; the draw is the argument [rnd],
    brought into that range. *)
Definition random_index (rnd len : nat) : nat := rnd `mod` len.

(** [xs[k]] on a path where [k < xs.length] (see [random_index_lt]); the
    default of [nth] is not read there. *)
Definition at_index (xs : list nat) (k : nat) : Z := Z.of_nat (nth k xs 0).

(** [computeAIMove(board, aiMark, playerMark)]; the result is a JavaScript
    number, [-1] when no move is left. *)
Definition computeAIMove (rnd : nat) (board : Squares) (aiMark playerMark : Mark) : Z :=
  match try_cells board aiMark (seq 0 9) with
  | Some i => Z.of_nat i
  | None =>
      match try_cells board playerMark (seq 0 9) with
      | Some i => Z.of_nat i
      | None =>
          if negb (truthy (sq board 4)) then 4%Z
          else
            let corners := empty_among board [0; 2; 6; 8] in
            if negb (length corners =? 0)
            then at_index corners (random_index rnd (length corners))
            else
              let sides := empty_among board [1; 3; 5; 7] in
              if negb (length sides =? 0)
              then at_index sides (random_index rnd (length sides))
              else (-1)%Z
      end
  end.

(** ** Arrays in a store

    JavaScript arrays are objects reached through references.  A store maps
    a reference to the contents of its array; [[...arr]] allocates a new
    array, [arr[i] = v] updates one in place, and [===] on two arrays (as in
    the dependency test of [useEffect]) compares the references. *)

Abbreviation loc := nat (only parsing).
Abbreviation store := (gmap nat Squares).

(** The contents behind a reference. *)
Definition read (σ : store) (l : loc) : Squares :=
  match σ !! l with
  | Some arr => arr
  | None => []
  end.

(** A new array with the given contents. *)
Definition alloc (σ : store) (arr : Squares) : loc * store :=
  let l := fresh (dom σ) in (l, <[l := arr]> σ).

(** [[...arr]] *)
Definition spread (σ : store) (l : loc) : loc * store := alloc σ (read σ l).

(** [arr[i] = v], in place. *)
Definition write (σ : store) (l : loc) (i : nat) (v : Cell) : store :=
  <[l := js_set (read σ l) i v]> σ.

(** The loops of [computeAIMove] on a board held in the store: every tried
    cell makes a copy, writes the mark into the copy and evaluates the copy. *)
Fixpoint try_cells_in (σ : store) (board : loc) (m : Mark) (idxs : list nat)
  : option nat * store :=
  match idxs with
  | [] => (None, σ)
  | i :: rest =>
      if negb (truthy (sq (read σ board) i)) then
        let '(copy, σ1) := spread σ board in
        let σ2 := write σ1 copy i (Some m) in
        if winner_is m (calculateWinner (read σ2 copy)) then (Some i, σ2)
        else try_cells_in σ2 board m rest
      else try_cells_in σ board m rest
  end.

(** [computeAIMove] on a board held in the store; the second component is
    the store after the call. *)
Definition computeAIMove_in (rnd : nat) (σ : store) (board : loc)
    (aiMark playerMark : Mark) : Z * store :=
  match try_cells_in σ board aiMark (seq 0 9) with
  | (Some i, σ1) => (Z.of_nat i, σ1)
  | (None, σ1) =>
      match try_cells_in σ1 board playerMark (seq 0 9) with
      | (Some i, σ2) => (Z.of_nat i, σ2)
      | (None, σ2) =>
          let b := read σ2 board in
          if negb (truthy (sq b 4)) then (4%Z, σ2)
          else
            let corners := empty_among b [0; 2; 6; 8] in
            if negb (length corners =? 0)
            then (at_index corners (random_index rnd (length corners)), σ2)
            else
              let sides := empty_among b [1; 3; 5; 7] in
              if negb (length sides =? 0)
              then (at_index sides (random_index rnd (length sides)), σ2)
              else ((-1)%Z, σ2)
      end
  end.

(** ** The [App] component *)

Inductive Mode := pvp | ai.

Global Instance Mode_eq_dec : EqDecision Mode.
Proof. solve_decision. Defined.

(** The [status] state, [{ winner: null | "X" | "O" | "tie", line }]. *)
Record Status := mkStatus { status_winner : option Winner; status_line : list nat }.

Definition no_status : Status := mkStatus None [].

Definition status_of (r : Result) : Status := mkStatus (Some (winner r)) (line r).

(** The five [useState] cells as one render sees them. *)
Record AppState := mkApp {
  mode : Mode;
  board : loc;
  xIsNext : bool;
  aiTurn : bool;
  status : Status
}.

(** A queued setter call. *)
Inductive Action :=
| setMode (m : Mode)
| setBoard (l : loc)
| setXIsNext (v : bool)
| flipXIsNext                (* [setXIsNext(prev => !prev)] *)
| setAITurn (v : bool)
| setStatus (s : Status).

Definition apply_action (st : AppState) (a : Action) : AppState :=
  match a with
  | setMode m => mkApp m (board st) (xIsNext st) (aiTurn st) (status st)
  | setBoard l => mkApp (mode st) l (xIsNext st) (aiTurn st) (status st)
  | setXIsNext v => mkApp (mode st) (board st) v (aiTurn st) (status st)
  | flipXIsNext => mkApp (mode st) (board st) (negb (xIsNext st)) (aiTurn st) (status st)
  | setAITurn v => mkApp (mode st) (board st) (xIsNext st) v (status st)
  | setStatus s => mkApp (mode st) (board st) (xIsNext st) (aiTurn st) s
  end.

(** The queued calls of one handler or commit, applied in order. *)
Definition apply_actions (st : AppState) (acts : list Action) : AppState :=
  foldl apply_action st acts.

Definition playerMark : Mark := X.
Definition aiMark : Mark := O.

(** [status.winner] as a condition. *)
Definition game_over (st : AppState) : bool :=
  match status_winner (status st) with
  | Some _ => true
  | None => false
  end.

(** [setAiFirstMove()], reading [mode] and [xIsNext] of the render it was
    created in. *)
Definition setAiFirstMove (st : AppState) : list Action :=
  if bool_decide (mode st = ai) && negb (xIsNext st)
  then [setAITurn true]
  else [setAITurn false].

(** [handleClick(i)] *)
Definition handleClick (σ : store) (st : AppState) (i : nat) : list Action * store :=
  if game_over st || truthy (sq (read σ (board st)) i) then ([], σ)
  else if bool_decide (mode st = pvp) || (bool_decide (mode st = ai) && xIsNext st) then
    let '(boardCopy, σ1) := spread σ (board st) in
    let σ2 := write σ1 boardCopy i (Some (if xIsNext st then X else O)) in
    ([setBoard boardCopy; setXIsNext (negb (xIsNext st)); setAITurn false], σ2)
  else ([], σ).

(** [handleRestart()] *)
Definition handleRestart (σ : store) (st : AppState) : list Action * store :=
  let '(fresh_board, σ1) := alloc σ emptyBoard in
  ([setBoard fresh_board; setXIsNext true; setStatus no_status] ++ setAiFirstMove st, σ1).

(** The effect with dependencies [[mode]]. *)
Definition effect_mode (σ : store) (st : AppState) : list Action * store :=
  let '(fresh_board, σ1) := alloc σ emptyBoard in
  ([setBoard fresh_board; setXIsNext true] ++ setAiFirstMove st ++ [setStatus no_status], σ1).

(** The effect with dependencies [[board]]. *)
Definition effect_status (σ : store) (st : AppState) : list Action :=
  match calculateWinner (read σ (board st)) with
  | Some result => [setStatus (status_of result)]
  | None =>
      setStatus no_status ::
      (if bool_decide (mode st = ai)
          && negb (game_over st)
          && ((xIsNext st && bool_decide (aiMark = X))
              || (negb (xIsNext st) && bool_decide (aiMark = O)))
       then [setAITurn true]
       else [setAITurn false])
  end.

(** The effect with dependencies [[aiTurn, board, mode, status.winner]].  It
    queues no setter call itself: it returns the array that its [setTimeout]
    callback will pass to [setBoard], if it arms one. *)
Definition effect_ai (rnd : nat) (σ : store) (st : AppState) : option loc * store :=
  if bool_decide (mode st = ai) && aiTurn st && negb (game_over st) then
    let '(idx, σ1) := computeAIMove_in rnd σ (board st) aiMark playerMark in
    if bool_decide (idx ≠ (-1)%Z) then
      let '(boardCopy, σ2) := spread σ1 (board st) in
      (Some boardCopy, write σ2 boardCopy (Z.to_nat idx) (Some aiMark))
    else (None, σ1)
  else (None, σ).

(** The callback armed by [effect_ai]. *)
Definition timer_callback (boardCopy : loc) : list Action :=
  [setBoard boardCopy; flipXIsNext].

(** ** Renders, commits and events

    How React runs the component, as far as the code relies on it:
    - a handler, an effect or a timer callback is a closure of one render
      and reads the state of that render only; its setter calls are queued
      and applied together, in order, before the next render;
    - after a render is committed, the effects whose dependency array
      differs from that of the previous render run in the order of their
      declaration (all of them on mount); arrays are compared by reference;
    - a timer armed by [setTimeout] fires later, as an event of its own;
      no effect of [App] returns a cleanup, so an armed timer always fires.

    A world is the store, the state of the last render, the armed timers
    (oldest first; all have the same delay) and the number of runs of the
    automated player's effect so far, which indexes the random draws. *)
Record World := mkWorld {
  heap : store;
  app : AppState;
  timers : list loc;
  draws : nat
}.

Definition with_app (w : World) (st : AppState) : World :=
  mkWorld (heap w) st (timers w) (draws w).

(** The dependency test of [useEffect]: on mount ([prev = None]) every
    effect runs, afterwards an effect runs when one of its dependencies
    differs from its value in the previous render. *)
Definition dep_changed {A} `{EqDecision A} (f : AppState → A)
    (prev : option AppState) (st : AppState) : bool :=
  match prev with
  | None => true
  | Some p => bool_decide (f p ≠ f st)
  end.

Definition status_winner_of (st : AppState) : option Winner := status_winner (status st).

(** One commit: the effects of the render [app w] run in the order of their
    declaration, each reading that render's state; the setter calls they
    queue are returned, the timer they arm is appended. *)
Definition commit (rnd : nat → nat) (prev : option AppState) (w : World)
  : list Action * World :=
  let st := app w in
  let '(acts1, σ1) :=
    if dep_changed mode prev st then effect_mode (heap w) st else ([], heap w) in
  let acts2 :=
    if dep_changed board prev st then effect_status σ1 st else [] in
  if dep_changed aiTurn prev st || dep_changed board prev st
     || dep_changed mode prev st || dep_changed status_winner_of prev st
  then
    let '(t, σ2) := effect_ai (rnd (draws w)) σ1 st in
    (acts1 ++ acts2, mkWorld σ2 st (timers w ++ option_list t) (S (draws w)))
  else (acts1 ++ acts2, mkWorld σ1 st (timers w) (draws w)).

(** Commit, and render again while effects queue setter calls.  [None] when
    the budget of renders is used up (it never is, see [flush_settles]). *)
Fixpoint flush (fuel : nat) (rnd : nat → nat) (prev : option AppState) (w : World)
  : option World :=
  let '(acts, w1) := commit rnd prev w in
  match acts with
  | [] => Some w1
  | _ :: _ =>
      match fuel with
      | 0 => None
      | S fuel' =>
          flush fuel' rnd (Some (app w)) (with_app w1 (apply_actions (app w) acts))
      end
  end.

Definition render_budget : nat := 4.

(** What the user and the clock can do. *)
Inductive Event :=
| Click (i : nat)
| SelectMode (m : Mode)
| ClickRestart
| TimerFires.

(** The setter calls an event queues.  A square exists for [i < 9] only, the
    restart button is rendered only while [status.winner] is set, and a
    timer fires only if one is armed. *)
Definition dispatch (w : World) (e : Event) : option (list Action * World) :=
  match e with
  | Click i =>
      if decide (i < 9) then
        let '(acts, σ) := handleClick (heap w) (app w) i in
        Some (acts, mkWorld σ (app w) (timers w) (draws w))
      else None
  | SelectMode m => Some ([setMode m], w)
  | ClickRestart =>
      if game_over (app w) then
        let '(acts, σ) := handleRestart (heap w) (app w) in
        Some (acts, mkWorld σ (app w) (timers w) (draws w))
      else None
  | TimerFires =>
      match timers w with
      | [] => None
      | boardCopy :: rest =>
          Some (timer_callback boardCopy, mkWorld (heap w) (app w) rest (draws w))
      end
  end.

(** One event: its setter calls are applied together, then the component
    renders and commits until no effect queues a call. *)
Definition step (rnd : nat → nat) (w : World) (e : Event) : option World :=
  match dispatch w e with
  | Some (acts, w1) =>
      flush render_budget rnd (Some (app w)) (with_app w1 (apply_actions (app w) acts))
  | None => None
  end.

(** The first render: [useState] initial values. *)
Definition initial_world : World :=
  let '(l, σ) := alloc ∅ emptyBoard in
  mkWorld σ (mkApp pvp l true false no_status) [] 0.

Definition mount (rnd : nat → nat) : option World :=
  flush render_budget rnd None initial_world.

(** A sequence of events from a world. *)
Fixpoint run (rnd : nat → nat) (w : World) (es : list Event) : option World :=
  match es with
  | [] => Some w
  | e :: rest =>
      match step rnd w e with
      | Some w' => run rnd w' rest
      | None => None
      end
  end.

(** The worlds the mounted component can be in. *)
Inductive reachable (rnd : nat → nat) : World → Prop :=
| reach_mount w : mount rnd = Some w → reachable rnd w
| reach_step w e w' : reachable rnd w → step rnd w e = Some w' → reachable rnd w'.

(** The board on screen. *)
Definition shown (w : World) : Squares := read (heap w) (board (app w)).

(** ** Vocabulary of the properties *)

Definition count_mark (m : Mark) (b : Squares) : nat :=
  length (filter (λ c, c = Some m) b).

(** The numbers of the two marks differ by at most one. *)
Definition balanced (b : Squares) : Prop :=
  count_mark X b ≤ count_mark O b + 1 ∧ count_mark O b ≤ count_mark X b + 1.

Definition well_formed (b : Squares) : Prop := length b = 9.

(** All three cells of the triple hold the mark [m]. *)
Definition monochrome (b : Squares) (m : Mark) (l : Line) : Prop :=
  let '(x, y, z) := l in sq b x = Some m ∧ sq b y = Some m ∧ sq b z = Some m.

Definition line_indices (l : Line) : list nat := let '(x, y, z) := l in [x; y; z].

Definition full (b : Squares) : Prop := ∀ i, i < 9 → sq b i ≠ None.

(** Cell [i] is empty and filling it with [m] makes [calculateWinner]
    report [m] as the winner. *)
Definition winning_cell (b : Squares) (m : Mark) (i : nat) : Prop :=
  i < 9 ∧ sq b i = None
  ∧ ∃ l, calculateWinner (js_set b i (Some m)) = Some (mkResult (Wins m) l).

Definition example_board : Squares :=
  [Some X; Some X; None; Some O; Some O; None; None; None; None].

(** The test made on one cell by either loop. *)
Definition cell_wins (b : Squares) (m : Mark) (i : nat) : Prop :=
  sq b i = None ∧ winner_is m (calculateWinner (js_set b i (Some m))) = true.

(** How a result of [computeAIMove] came about. *)
Inductive move_reason (b : Squares) (self opp : Mark) : Z → Prop :=
| by_win k :
    try_cells b self (seq 0 9) = Some k → move_reason b self opp (Z.of_nat k)
| by_block k :
    try_cells b self (seq 0 9) = None →
    try_cells b opp (seq 0 9) = Some k → move_reason b self opp (Z.of_nat k)
| by_center :
    try_cells b self (seq 0 9) = None →
    try_cells b opp (seq 0 9) = None →
    sq b 4 = None → move_reason b self opp 4%Z
| by_corner k :
    try_cells b self (seq 0 9) = None →
    try_cells b opp (seq 0 9) = None →
    sq b 4 ≠ None → k ∈ empty_among b [0; 2; 6; 8] → move_reason b self opp (Z.of_nat k)
| by_side k :
    try_cells b self (seq 0 9) = None →
    try_cells b opp (seq 0 9) = None →
    sq b 4 ≠ None → empty_among b [0; 2; 6; 8] = [] →
    k ∈ empty_among b [1; 3; 5; 7] → move_reason b self opp (Z.of_nat k)
| by_nothing :
    try_cells b self (seq 0 9) = None →
    try_cells b opp (seq 0 9) = None →
    sq b 4 ≠ None → empty_among b [0; 2; 6; 8] = [] → empty_among b [1; 3; 5; 7] = [] →
    move_reason b self opp (-1)%Z.

(** Column [0,3,6] and diagonal [2,4,6] are both held by X. *)
Definition double_win_board : Squares :=
  [Some X; Some O; Some X; Some X; Some X; Some O; Some X; Some O; Some O].

(** The example of the specification: X holds 0 and 1, O holds 3 and 4. *)
Definition example_as_described (rnd : nat) : Prop :=
  computeAIMove rnd example_board O X = 5%Z
  ∧ winning_cell example_board X 5
  ∧ winning_cell example_board O 8.

(** A click as the specification describes an accepted move: whenever the
    stored verdict is not terminal and the cell is empty, the mover's mark
    is put into that cell. *)
Definition click_as_stated (σ : gmap nat Squares) (st : AppState) (i : nat) : Prop :=
  game_over st = false →
  sq (read σ (board st)) i = None →
  let r := handleClick σ st i in
  sq (read r.2 (board (apply_actions st r.1))) i = Some (if xIsNext st then X else O).

(** Every draw picks the first candidate. *)
Definition first_choice : nat → nat := λ _, 0.

(** Mount, then the given events. *)
Definition play (rnd : nat → nat) (es : list Event) : option World :=
  match mount rnd with
  | Some w => run rnd w es
  | None => None
  end.

(** The automated player keeps playing: after one click of the human and
    three timers the board holds one X and three O. *)
Definition ai_runs_ahead (rnd : nat → nat) : Prop :=
  ∃ w, play rnd [SelectMode ai; Click 0; TimerFires; TimerFires; TimerFires] = Some w
       ∧ reachable rnd w
       ∧ count_mark X (shown w) = 1
       ∧ count_mark O (shown w) = 3
       ∧ ¬ balanced (shown w).

(** The counts agree with whose turn it is: equal when X is to move, one X
    more when O is. *)
Definition turn_consistent (b : Squares) (x_next : bool) : Prop :=
  if x_next then count_mark X b = count_mark O b
  else count_mark X b = S (count_mark O b).

(** ** What is rendered *)

(** [statusMessage()].  The texts are those of the source file, byte for
    byte. *)
Definition statusMessage (st : AppState) : string :=
  match status_winner (status st) with
  | Some w =>
      if bool_decide (w = TieGame) then "It's a tie!"
      else if bool_decide (mode st = ai) then
        (if bool_decide (w = Wins playerMark) then "You win! ðŸŽ‰" else "AI wins! ðŸ¤–")
      else
        (if bool_decide (w = Wins X) then "Player X wins! ðŸŽ‰" else "Player O wins! ðŸŽ‰")
  | None =>
      if bool_decide (mode st = ai) then
        (if (xIsNext st && bool_decide (playerMark = X))
            || (negb (xIsNext st) && bool_decide (playerMark = O))
         then "Your move!" else "AI is thinking...")
      else "Current Move: " +:+ (if xIsNext st then "X" else "O")
  end%string.

(** What [Square] receives and shows. *)
Record SquareView := mkSquare {
  sq_value : Cell;
  sq_highlight : bool;
  sq_class : string;
  sq_disabled : bool;
  sq_label : string;
  sq_tabIndex : Z
}.

Definition mark_text (m : Mark) : string :=
  match m with
  | X => "X"
  | O => "O"
  end.

(** [Square({ value, onClick, highlight })]: the button is disabled and
    taken out of the tab order when the value is truthy; its label names the
    value. *)
Definition Square (value : Cell) (highlight : bool) : SquareView :=
  mkSquare value highlight
    ("ttt-square" +:+ (if highlight then " highlight" else ""))%string
    (truthy value)
    (match value with
     | Some m => "Filled with " +:+ mark_text m
     | None => "Empty square"
     end)%string
    (if truthy value then (-1)%Z else 0%Z).

(** [winningLine && winningLine.includes(i)]; an array is truthy. *)
Definition renderSquare (squares : Squares) (winningLine : list nat) (i : nat)
  : SquareView :=
  Square (sq squares i) (bool_decide (i ∈ winningLine)).

(** [Board({ squares, onClick, winningLine })]: three rows of three squares,
    square [r * 3 + c] in row [r], column [c]. *)
Definition Board (squares : Squares) (winningLine : list nat) : list (list SquareView) :=
  (λ r, (λ c, renderSquare squares winningLine (r * 3 + c)) <$> [0; 1; 2]) <$> [0; 1; 2].

(** [ModeSelector({ mode, setMode })]: whether the "VS Player" and the
    "VS AI" button are shown as pressed. *)
Definition ModeSelector (m : Mode) : bool * bool :=
  (bool_decide (m = pvp), bool_decide (m = ai)).

(** What [App] returns, as far as the state decides it: the mode buttons,
    the board, and the message either in the info bar (with the restart
    button) or as the turn message. *)
Record AppView := mkView {
  view_mode_selector : bool * bool;
  view_board : list (list SquareView);
  view_info_bar : option string;
  view_turn_message : option string
}.

Definition render (σ : store) (st : AppState) : AppView :=
  mkView (ModeSelector (mode st))
         (Board (read σ (board st)) (status_line (status st)))
         (if game_over st then Some (statusMessage st) else None)
         (if game_over st then None else Some (statusMessage st)).

(** ** Invariants of the running component *)

(** Every array in the store has nine cells. *)
Definition heap_ok (σ : store) : Prop := ∀ l b, σ !! l = Some b → length b = 9.

(** The board of the last render and the arrays held by armed timers exist. *)
Definition world_ok (w : World) : Prop :=
  heap_ok (heap w)
  ∧ is_Some (heap w !! board (app w))
  ∧ Forall (λ l, is_Some (heap w !! l)) (timers w).

(** The status that [effect_status] stores for a board. *)
Definition verdict_status (b : Squares) : Status :=
  match calculateWinner b with
  | Some r => status_of r
  | None => no_status
  end.

(** The stored status is the verdict of the board on screen. *)
Definition status_fresh (w : World) : Prop :=
  status (app w) = verdict_status (shown w).

(** ** Exchanging the two marks *)

Definition swap_mark (m : Mark) : Mark :=
  match m with
  | X => O
  | O => X
  end.

Definition swap_cell (c : Cell) : Cell :=
  match c with
  | Some m => Some (swap_mark m)
  | None => None
  end.

Definition swap_board (b : Squares) : Squares := swap_cell <$> b.

Definition swap_result (r : Result) : Result :=
  match winner r with
  | Wins m => mkResult (Wins (swap_mark m)) (line r)
  | TieGame => r
  end.

(** ** Array reads and writes *)

Lemma sq_lookup (b : Squares) i c : b !! i = Some c → sq b i = c.
Proof. unfold sq. by intros ->. Qed.

Lemma sq_out_of_range (b : Squares) i : length b ≤ i → sq b i = None.
Proof. intros H. unfold sq. by rewrite lookup_ge_None_2. Qed.

Lemma sq_js_set (b : Squares) i v j :
  sq (js_set b i v) j = if decide (j = i) then v else sq b j.
Proof.
  unfold js_set. destruct (decide (i < length b)) as [Hin | Hout].
  - destruct (decide (j = i)) as [-> | Hne]; unfold sq.
    + by rewrite list_lookup_insert_eq.
    + by rewrite list_lookup_insert_ne.
  - destruct (decide (j < length b)) as [Hj | Hj].
    + rewrite decide_False by lia. unfold sq. by rewrite lookup_app_l.
    + unfold sq at 1. rewrite lookup_app_r by lia.
      destruct (decide (j = i)) as [-> | Hne].
      * rewrite lookup_app_r by (rewrite length_replicate; lia).
        rewrite length_replicate. by replace (i - length b - (i - length b)) with 0 by lia.
      * rewrite sq_out_of_range by lia.
        destruct (decide (j < i)).
        -- rewrite lookup_app_l by (rewrite length_replicate; lia).
           by rewrite lookup_replicate_2 by lia.
        -- rewrite lookup_app_r by (rewrite length_replicate; lia).
           rewrite length_replicate.
           destruct (j - length b - (i - length b)) as [|k] eqn:E; [lia | done].
Qed.

Lemma js_set_in_range (b : Squares) i v :
  i < length b → js_set b i v = <[i:=v]> b.
Proof. intros H. unfold js_set. by rewrite decide_True. Qed.

Lemma truthy_false (c : Cell) : truthy c = false ↔ c = None.
Proof. destruct c; naive_solver. Qed.

Lemma truthy_true (c : Cell) : truthy c = true ↔ c ≠ None.
Proof. destruct c; naive_solver. Qed.

(** ** Scanning the triples *)

Lemma line_won_monochrome b t : line_won b t = true ↔ ∃ m, monochrome b m t.
Proof.
  destruct t as [[x y] z]. unfold line_won, monochrome. split.
  - intros H. apply andb_true_iff in H as [H Hz]. apply andb_true_iff in H as [Hx Hy].
    apply bool_decide_eq_true in Hy, Hz.
    destruct (sq b x) as [m|] eqn:E; [|done]. exists m. by rewrite <- Hy, <- Hz.
  - intros (m & -> & -> & ->). simpl. by rewrite !bool_decide_eq_true_2.
Qed.

Lemma scan_lines_none b ls :
  scan_lines b ls = None ↔ Forall (λ t, line_won b t = false) ls.
Proof.
  induction ls as [|[[x y] z] rest IH]; cbn [scan_lines].
  - split; [constructor | done].
  - rewrite Forall_cons. destruct (line_won b (x, y, z)) eqn:Hw.
    + apply line_won_monochrome in Hw as Hm. destruct Hm as (m & Hx & _).
      rewrite Hx. split; [done | by intros [? _]].
    + rewrite <- IH. destruct (sq b x); (split; [intros; split; done | intros [_ ?]; done]).
Qed.

Lemma scan_lines_first b pre t post m :
  Forall (λ t', line_won b t' = false) pre →
  monochrome b m t →
  scan_lines b (pre ++ t :: post) = Some (mkResult (Wins m) (line_indices t)).
Proof.
  intros Hpre Hm. induction Hpre as [|[[x y] z] pre Hx _ IH]; cbn [app scan_lines].
  - destruct t as [[x y] z]. assert (Hw : line_won b (x, y, z) = true).
    { apply line_won_monochrome. by exists m. }
    destruct Hm as (Hx & _). rewrite app_nil_l. cbn [scan_lines]. by rewrite Hx, Hw.
  - rewrite <- app_comm_cons. cbn [scan_lines]. rewrite Hx. by destruct (sq b x).
Qed.

Lemma scan_lines_some b ls r :
  scan_lines b ls = Some r →
  ∃ pre t post m,
    ls = pre ++ t :: post
    ∧ Forall (λ t', line_won b t' = false) pre
    ∧ monochrome b m t
    ∧ r = mkResult (Wins m) (line_indices t).
Proof.
  induction ls as [|[[x y] z] rest IH]; cbn [scan_lines]; [done|].
  destruct (line_won b (x, y, z)) eqn:Hw.
  - apply line_won_monochrome in Hw as Hm. destruct Hm as (m & Hm).
    destruct Hm as (Hx & Hy & Hz). rewrite Hx. intros [= <-].
    exists [], (x, y, z), rest, m. repeat split; auto.
  - intros H. assert (H' : scan_lines b rest = Some r) by (destruct (sq b x); done).
    destruct (IH H') as (pre & t & post & m & -> & Hpre & Hm & ->).
    exists ((x, y, z) :: pre), t, post, m. repeat split; auto.
Qed.

Lemma no_line_won b ls :
  Forall (λ t, line_won b t = false) ls ↔ ¬ ∃ m t, t ∈ ls ∧ monochrome b m t.
Proof.
  rewrite Forall_forall. split.
  - intros H (m & t & Hin & Hm). specialize (H t Hin).
    assert (line_won b t = true) by (apply line_won_monochrome; eauto). congruence.
  - intros H t Hin. destruct (line_won b t) eqn:E; [|done].
    apply line_won_monochrome in E as (m & Hm). destruct H; eauto.
Qed.

Lemma forallb_truthy_full b : well_formed b → forallb truthy b = true ↔ full b.
Proof.
  intros Hlen. unfold full. rewrite forallb_forall. split.
  - intros H i Hi. destruct (lookup_lt_is_Some_2 b i) as [c Hc]; [unfold well_formed in Hlen; lia|].
    rewrite (sq_lookup _ _ _ Hc). apply truthy_true, H.
    apply list_elem_of_In, list_elem_of_lookup. eauto.
  - intros H c Hin. apply list_elem_of_In, list_elem_of_lookup in Hin as [i Hi].
    apply truthy_true. rewrite <- (sq_lookup _ _ _ Hi). apply H.
    apply lookup_lt_Some in Hi. unfold well_formed in Hlen. lia.
Qed.

Lemma calculateWinner_won b r :
  scan_lines b lines = Some r → calculateWinner b = Some r.
Proof. unfold calculateWinner. by intros ->. Qed.

Lemma calculateWinner_mark b m l :
  calculateWinner b = Some (mkResult (Wins m) l) ↔
  scan_lines b lines = Some (mkResult (Wins m) l).
Proof.
  unfold calculateWinner. destruct (scan_lines b lines) as [r|]; [done|].
  destruct (forallb truthy b); naive_solver.
Qed.

(** ** The two search loops of the automated player *)

Lemma winner_is_true m r :
  winner_is m r = true ↔ ∃ l, r = Some (mkResult (Wins m) l).
Proof.
  unfold winner_is. destruct r as [[w l]|]; simpl.
  - rewrite bool_decide_eq_true. split.
    + intros ->. by exists l.
    + by intros (l' & [= -> _]).
  - split; [done | by intros (l & ?)].
Qed.

Lemma winning_cell_test b m i :
  winning_cell b m i ↔ i ∈ seq 0 9 ∧ cell_wins b m i.
Proof.
  unfold winning_cell, cell_wins. rewrite winner_is_true, elem_of_seq.
  split; intros (? & ? & ?); repeat split; auto; lia.
Qed.

Lemma try_cells_some b m idxs k :
  try_cells b m idxs = Some k → k ∈ idxs ∧ cell_wins b m k.
Proof.
  unfold cell_wins. induction idxs as [|i rest IH]; cbn [try_cells]; [done|].
  destruct (truthy (sq b i)) eqn:Ht; cbn [negb].
  - intros H. destruct (IH H). split; [by right | done].
  - destruct (winner_is m (calculateWinner (js_set b i (Some m)))) eqn:Hw.
    + intros [= <-]. apply truthy_false in Ht. split; [by left | done].
    + intros H. destruct (IH H). split; [by right | done].
Qed.

Lemma try_cells_none b m idxs :
  try_cells b m idxs = None ↔ ∀ i, i ∈ idxs → ¬ cell_wins b m i.
Proof.
  unfold cell_wins. induction idxs as [|i rest IH]; cbn [try_cells].
  - split; [by intros _ i ?%elem_of_nil | done].
  - destruct (truthy (sq b i)) eqn:Ht; cbn [negb].
    + rewrite IH. apply truthy_true in Ht. split.
      * intros H j [-> | Hj]%elem_of_cons; [by intros [? _] | by apply H].
      * intros H j Hj. apply H. by right.
    + apply truthy_false in Ht.
      destruct (winner_is m (calculateWinner (js_set b i (Some m)))) eqn:Hw.
      * split; [done|]. intros H. destruct (H i); [by left | done].
      * rewrite IH. split.
        -- intros H j [-> | Hj]%elem_of_cons; [intros [_ ?]; congruence | by apply H].
        -- intros H j Hj. apply H. by right.
Qed.

(** ** The positional choices *)

Lemma random_index_lt rnd len : len ≠ 0 → random_index rnd len < len.
Proof. intros H. unfold random_index. by apply Nat.mod_upper_bound. Qed.

Lemma elem_of_empty_among b xs i :
  i ∈ empty_among b xs ↔ i ∈ xs ∧ sq b i = None.
Proof. unfold empty_among. rewrite list_elem_of_filter, truthy_false. tauto. Qed.

Lemma at_index_random rnd xs :
  xs ≠ [] → ∃ k, k ∈ xs ∧ at_index xs (random_index rnd (length xs)) = Z.of_nat k.
Proof.
  intros Hne. assert (Hlen : length xs ≠ 0) by (by destruct xs).
  pose proof (random_index_lt rnd _ Hlen) as Hlt.
  destruct (lookup_lt_is_Some_2 xs _ Hlt) as [k Hk].
  exists k. split; [apply list_elem_of_lookup; eauto|].
  unfold at_index. by rewrite (nth_lookup_Some _ _ _ _ Hk).
Qed.

Lemma length_eqb_0 {A} (xs : list A) : (length xs =? 0) = true ↔ xs = [].
Proof. rewrite Nat.eqb_eq. by destruct xs. Qed.

Lemma computeAIMove_reason rnd b self opp :
  move_reason b self opp (computeAIMove rnd b self opp).
Proof.
  unfold computeAIMove.
  destruct (try_cells b self (seq 0 9)) as [k|] eqn:Hw; [by apply by_win|].
  destruct (try_cells b opp (seq 0 9)) as [k|] eqn:Hb; [by apply by_block|].
  destruct (truthy (sq b 4)) eqn:Hc; cbn [negb].
  2: { apply by_center; auto. by apply truthy_false. }
  apply truthy_true in Hc.
  destruct (length (empty_among b [0; 2; 6; 8]) =? 0) eqn:Hcor; cbn [negb].
  2: { destruct (at_index_random rnd (empty_among b [0; 2; 6; 8])) as (k & Hk & ->).
       - intros E. apply length_eqb_0 in E. congruence.
       - by apply by_corner. }
  apply length_eqb_0 in Hcor.
  destruct (length (empty_among b [1; 3; 5; 7]) =? 0) eqn:Hsid; cbn [negb].
  2: { destruct (at_index_random rnd (empty_among b [1; 3; 5; 7])) as (k & Hk & ->).
       - intros E. apply length_eqb_0 in E. congruence.
       - by apply by_side. }
  apply length_eqb_0 in Hsid. by apply by_nothing.
Qed.

(** ** Verdicts *)

(** C1.  On a well-formed board [calculateWinner] reports a mark as winner,
    with a triple, exactly when one of the eight triples holds three equal
    marks, and then the reported triple is such a triple of that mark; when
    no triple is won it reports a tie if all nine cells are taken and
    returns [null] otherwise. *)
Theorem calculateWinner_verdict (b : Squares) :
  well_formed b →
  ((∃ m l, calculateWinner b = Some (mkResult (Wins m) l))
     ↔ (∃ m t, t ∈ lines ∧ monochrome b m t))
  ∧ (∀ m l, calculateWinner b = Some (mkResult (Wins m) l) →
       ∃ t, t ∈ lines ∧ monochrome b m t ∧ l = line_indices t)
  ∧ ((¬ ∃ m t, t ∈ lines ∧ monochrome b m t) → full b →
       calculateWinner b = Some (mkResult TieGame []))
  ∧ ((¬ ∃ m t, t ∈ lines ∧ monochrome b m t) → ¬ full b →
       calculateWinner b = None).
Proof.
  intros Hwf.
  assert (Hsome : ∀ m l, calculateWinner b = Some (mkResult (Wins m) l) →
            ∃ t, t ∈ lines ∧ monochrome b m t ∧ l = line_indices t).
  { intros m l H. apply calculateWinner_mark in H.
    destruct (scan_lines_some _ _ _ H) as (pre & t & post & m' & Hl & _ & Hm & [= -> ->]).
    exists t. rewrite Hl. split; [|done]. apply elem_of_app. right. by left. }
  split; [|split; [exact Hsome|split]].
  - split.
    + intros (m & l & H). destruct (Hsome m l H) as (t & ? & ? & _). eauto.
    + intros (m & t & Hin & Hm).
      destruct (scan_lines b lines) as [r|] eqn:Hscan.
      * destruct (scan_lines_some _ _ _ Hscan) as (_ & t' & _ & m' & _ & _ & _ & ->).
        exists m', (line_indices t'). by apply calculateWinner_won.
      * apply scan_lines_none, no_line_won in Hscan. destruct Hscan; eauto.
  - intros Hno Hfull. apply no_line_won, scan_lines_none in Hno.
    unfold calculateWinner. rewrite Hno.
    apply (forallb_truthy_full b Hwf) in Hfull. by rewrite Hfull.
  - intros Hno Hfull. apply no_line_won, scan_lines_none in Hno.
    unfold calculateWinner. rewrite Hno.
    destruct (forallb truthy b) eqn:E; [|done].
    by apply (forallb_truthy_full b Hwf) in E.
Qed.

Lemma calculateWinner_verdict_witness :
  ((∃ m l, calculateWinner example_board = Some (mkResult (Wins m) l))
     ↔ (∃ m t, t ∈ lines ∧ monochrome example_board m t))
  ∧ (∀ m l, calculateWinner example_board = Some (mkResult (Wins m) l) →
       ∃ t, t ∈ lines ∧ monochrome example_board m t ∧ l = line_indices t)
  ∧ ((¬ ∃ m t, t ∈ lines ∧ monochrome example_board m t) → full example_board →
       calculateWinner example_board = Some (mkResult TieGame []))
  ∧ ((¬ ∃ m t, t ∈ lines ∧ monochrome example_board m t) → ¬ full example_board →
       calculateWinner example_board = None).
Proof. apply (calculateWinner_verdict example_board). reflexivity. Defined.

(** C9.  When several triples are won, [calculateWinner] reports the first
    one in the order of [lines] (rows, then columns, then diagonals),
    together with the mark it holds. *)
Theorem calculateWinner_first_in_scan_order (b : Squares) m pre t post :
  lines = pre ++ t :: post →
  monochrome b m t →
  (∀ t' m', t' ∈ pre → ¬ monochrome b m' t') →
  calculateWinner b = Some (mkResult (Wins m) (line_indices t)).
Proof.
  intros Hl Hm Hpre. apply calculateWinner_won. rewrite Hl.
  apply scan_lines_first; [|done].
  apply no_line_won. intros (m' & t' & Hin & Hm'). by apply (Hpre t' m').
Qed.

Lemma calculateWinner_first_in_scan_order_witness :
  monochrome double_win_board X (2, 4, 6)
  ∧ calculateWinner double_win_board = Some (mkResult (Wins X) [0; 3; 6]).
Proof.
  split; [by repeat split|].
  apply (calculateWinner_first_in_scan_order double_win_board X
           [(0, 1, 2); (3, 4, 5); (6, 7, 8)] (0, 3, 6)
           [(1, 4, 7); (2, 5, 8); (0, 4, 8); (2, 4, 6)]).
  - reflexivity.
  - by repeat split.
  - intros t' m' Hin Hm.
    repeat (apply elem_of_cons in Hin as [-> | Hin]; [by destruct m', Hm as (? & ? & ?)|]).
    by apply elem_of_nil in Hin.
Defined.

(** ** Moves of the automated player *)

(** C2.  If some empty cell wins at once for the automated player's mark,
    [computeAIMove] returns such a cell; if none does but some empty cell
    would win for the opponent, it returns such a cell.  Either way the
    centre, corner and side choices are not consulted. *)
Theorem computeAIMove_wins_or_blocks rnd (b : Squares) self opp :
  (∃ i, winning_cell b self i) ∨ (∃ i, winning_cell b opp i) →
  ∃ k, computeAIMove rnd b self opp = Z.of_nat k
       ∧ ((∃ i, winning_cell b self i) → winning_cell b self k)
       ∧ ((¬ ∃ i, winning_cell b self i) → winning_cell b opp k).
Proof.
  intros Hex. unfold computeAIMove.
  destruct (try_cells b self (seq 0 9)) as [k|] eqn:Hw.
  - exists k. apply try_cells_some in Hw.
    assert (winning_cell b self k) by by apply winning_cell_test.
    split; [done|]. split; [done|]. intros Hno. destruct Hno. eauto.
  - assert (Hno : ¬ ∃ i, winning_cell b self i).
    { intros (i & [Hi Hc]%winning_cell_test). by apply (proj1 (try_cells_none _ _ _) Hw i). }
    destruct Hex as [Hex | (i & [Hi Hc]%winning_cell_test)]; [done|].
    destruct (try_cells b opp (seq 0 9)) as [k|] eqn:Hb.
    + exists k. apply try_cells_some in Hb. split; [done|].
      split; [done|]. intros _. by apply winning_cell_test.
    + by destruct (proj1 (try_cells_none _ _ _) Hb i).
Qed.

Lemma computeAIMove_wins_or_blocks_witness :
  ∃ k, computeAIMove 0 example_board O X = Z.of_nat k
       ∧ ((∃ i, winning_cell example_board O i) → winning_cell example_board O k)
       ∧ ((¬ ∃ i, winning_cell example_board O i) → winning_cell example_board X k).
Proof.
  apply (computeAIMove_wins_or_blocks 0 example_board O X).
  left. exists 5. split; [lia|]. split; [reflexivity|]. eexists. reflexivity.
Defined.

Lemma move_reason_empty_cell (b : Squares) self opp r :
  move_reason b self opp r → r ≠ (-1)%Z →
  ∃ k, r = Z.of_nat k ∧ k < 9 ∧ sq b k = None.
Proof.
  intros [k Hk | k _ Hk | _ _ Hc | k _ _ _ Hk | k _ _ _ _ Hk | ] Hne; [..|done].
  - apply try_cells_some in Hk as [Hin [He _]]. apply elem_of_seq in Hin.
    exists k. split; [done|]. split; [lia | done].
  - apply try_cells_some in Hk as [Hin [He _]]. apply elem_of_seq in Hin.
    exists k. split; [done|]. split; [lia | done].
  - exists 4. split; [done|]. split; [lia | done].
  - apply elem_of_empty_among in Hk as [Hin He]. exists k. split; [done|].
    split; [|done]. repeat (apply elem_of_cons in Hin as [-> | Hin]; [lia|]).
    by apply elem_of_nil in Hin.
  - apply elem_of_empty_among in Hk as [Hin He]. exists k. split; [done|].
    split; [|done]. repeat (apply elem_of_cons in Hin as [-> | Hin]; [lia|]).
    by apply elem_of_nil in Hin.
Qed.

(** C10.  A result of [computeAIMove] other than [-1] is an index from 0 to
    8 whose cell is empty on the board passed in. *)
Theorem computeAIMove_empty_cell rnd (b : Squares) self opp :
  computeAIMove rnd b self opp ≠ (-1)%Z →
  ∃ k, computeAIMove rnd b self opp = Z.of_nat k ∧ k < 9 ∧ sq b k = None.
Proof.
  intros Hne. apply (move_reason_empty_cell b self opp); [|done].
  apply computeAIMove_reason.
Qed.

Lemma computeAIMove_empty_cell_witness :
  ∃ k, computeAIMove 0 example_board O X = Z.of_nat k ∧ k < 9 ∧ sq example_board k = None.
Proof. apply (computeAIMove_empty_cell 0 example_board O X). vm_compute. discriminate. Defined.

(** C3, as stated, fails: on the example board cell 5 is not a cell where X
    would win, so taking it blocks nothing. *)
Lemma example_move_blocks_nothing : ¬ ∃ rnd, example_as_described rnd.
Proof.
  intros (rnd & _ & (_ & _ & l & Hl) & _). vm_compute in Hl. discriminate.
Qed.

(** C3, amended.  On the example board with the automated player as O,
    [computeAIMove] returns 5 from its first loop: cell 5 completes O's own
    row [3,4,5].  X's threat is at cell 2, which is left open; cell 5 is no
    winning cell of X and cell 8 none of O. *)
Theorem example_move_is_own_win rnd :
  computeAIMove rnd example_board O X = 5%Z
  ∧ try_cells example_board O (seq 0 9) = Some 5
  ∧ calculateWinner (js_set example_board 5 (Some O)) = Some (mkResult (Wins O) [3; 4; 5])
  ∧ winning_cell example_board X 2
  ∧ ¬ winning_cell example_board X 5
  ∧ ¬ winning_cell example_board O 8.
Proof.
  repeat split; try reflexivity; try lia.
  - by exists [0; 1; 2].
  - intros (_ & _ & l & Hl). vm_compute in Hl. discriminate.
  - intros (_ & _ & l & Hl). vm_compute in Hl. discriminate.
Qed.

(** ** The store is only extended *)

Lemma read_lookup (σ : gmap nat Squares) l b : σ !! l = Some b → read σ l = b.
Proof. unfold read. by intros ->. Qed.

Lemma alloc_fresh (σ : gmap nat Squares) arr : σ !! (alloc σ arr).1 = None.
Proof. unfold alloc. cbn [fst]. apply not_elem_of_dom, is_fresh. Qed.

Lemma alloc_store (σ : gmap nat Squares) arr :
  (alloc σ arr).2 = <[(alloc σ arr).1 := arr]> σ.
Proof. reflexivity. Qed.

Lemma alloc_extends (σ : gmap nat Squares) arr : σ ⊆ (alloc σ arr).2.
Proof. rewrite alloc_store. apply insert_subseteq, alloc_fresh. Qed.

(** A spread copy followed by one write into the copy. *)
Lemma copy_then_write (σ : gmap nat Squares) l b i v :
  σ !! l = Some b →
  write (spread σ l).2 (spread σ l).1 i v = <[(spread σ l).1 := js_set b i v]> σ.
Proof.
  intros Hl. unfold spread, write. rewrite (read_lookup _ _ _ Hl), alloc_store.
  unfold read. rewrite lookup_insert_eq. apply insert_insert_eq.
Qed.

Lemma copy_then_write_extends (σ : gmap nat Squares) l b i v :
  σ !! l = Some b → σ ⊆ write (spread σ l).2 (spread σ l).1 i v.
Proof.
  intros Hl. rewrite (copy_then_write _ _ _ _ _ Hl).
  apply insert_subseteq. unfold spread. apply alloc_fresh.
Qed.

Lemma copy_then_write_read (σ : gmap nat Squares) l b i v :
  σ !! l = Some b →
  read (write (spread σ l).2 (spread σ l).1 i v) (spread σ l).1 = js_set b i v.
Proof.
  intros Hl. rewrite (copy_then_write _ _ _ _ _ Hl). unfold read.
  by rewrite lookup_insert_eq.
Qed.

Lemma try_cells_in_spec (σ : gmap nat Squares) l b m idxs :
  σ !! l = Some b →
  (try_cells_in σ l m idxs).1 = try_cells b m idxs
  ∧ σ ⊆ (try_cells_in σ l m idxs).2.
Proof.
  revert σ. induction idxs as [|i rest IH]; intros σ Hl; cbn [try_cells_in try_cells].
  - done.
  - rewrite (read_lookup _ _ _ Hl).
    destruct (truthy (sq b i)); cbn [negb]; [by apply IH|].
    rewrite (surjective_pairing (spread σ l)).
    rewrite (copy_then_write_read _ _ _ _ _ Hl).
    pose proof (copy_then_write_extends σ l b i (Some m) Hl) as Hsub.
    destruct (winner_is m (calculateWinner (js_set b i (Some m)))); [done|].
    destruct (IH _ (lookup_weaken _ _ _ _ Hl Hsub)) as [-> Hsub'].
    split; [done | by etrans].
Qed.

Lemma computeAIMove_in_spec rnd (σ : gmap nat Squares) l b self opp :
  σ !! l = Some b →
  (computeAIMove_in rnd σ l self opp).1 = computeAIMove rnd b self opp
  ∧ σ ⊆ (computeAIMove_in rnd σ l self opp).2.
Proof.
  intros Hl. unfold computeAIMove_in, computeAIMove.
  destruct (try_cells_in_spec σ l b self (seq 0 9) Hl) as [E1 S1].
  destruct (try_cells_in σ l self (seq 0 9)) as [r1 σ1]. cbn [fst snd] in E1, S1.
  rewrite <- E1. destruct r1 as [k|]; [done|].
  pose proof (lookup_weaken _ _ _ _ Hl S1) as Hl1.
  destruct (try_cells_in_spec σ1 l b opp (seq 0 9) Hl1) as [E2 S2].
  destruct (try_cells_in σ1 l opp (seq 0 9)) as [r2 σ2]. cbn [fst snd] in E2, S2.
  rewrite <- E2. assert (σ ⊆ σ2) by by etrans.
  destruct r2 as [k|]; [done|].
  rewrite (read_lookup _ _ _ (lookup_weaken _ _ _ _ Hl1 S2)).
  destruct (negb (truthy (sq b 4))); [done|].
  destruct (negb (length (empty_among b [0; 2; 6; 8]) =? 0)); [done|].
  by destruct (negb (length (empty_among b [1; 3; 5; 7]) =? 0)).
Qed.

(** C6.  [computeAIMove] leaves the array it is given as it was, and every
    other array that existed before the call: the marks it tries are
    written into copies.  Its result is that of the function on values. *)
Theorem computeAIMove_leaves_board rnd (σ : gmap nat Squares) l b self opp :
  σ !! l = Some b →
  (computeAIMove_in rnd σ l self opp).2 !! l = Some b
  ∧ (∀ l' arr, σ !! l' = Some arr →
       (computeAIMove_in rnd σ l self opp).2 !! l' = Some arr)
  ∧ (computeAIMove_in rnd σ l self opp).1 = computeAIMove rnd b self opp.
Proof.
  intros Hl. destruct (computeAIMove_in_spec rnd σ l b self opp Hl) as [E S].
  split; [by eapply lookup_weaken|]. split; [|done].
  intros l' arr H. by eapply lookup_weaken.
Qed.

Lemma computeAIMove_leaves_board_witness :
  (computeAIMove_in 0 {[7 := example_board]} 7 O X).2 !! 7 = Some example_board
  ∧ (∀ l' arr, ({[7 := example_board]} : gmap nat Squares) !! l' = Some arr →
       (computeAIMove_in 0 {[7 := example_board]} 7 O X).2 !! l' = Some arr)
  ∧ (computeAIMove_in 0 {[7 := example_board]} 7 O X).1 = computeAIMove 0 example_board O X.
Proof. apply (computeAIMove_leaves_board 0 {[7 := example_board]} 7). reflexivity. Defined.

(** C5.  On a well-formed board [computeAIMove] returns [-1] exactly when
    no cell is empty; with an empty cell it returns an index below 9.  The
    caller treats [-1] as nothing to do: the effect arms no timer. *)
Theorem computeAIMove_none_iff_full rnd (b : Squares) self opp :
  well_formed b →
  (computeAIMove rnd b self opp = (-1)%Z ↔ full b)
  ∧ ((∃ i, i < 9 ∧ sq b i = None) →
       ∃ k, k < 9 ∧ computeAIMove rnd b self opp = Z.of_nat k)
  ∧ (∀ (σ : gmap nat Squares) st, σ !! board st = Some b → full b →
       (effect_ai rnd σ st).1 = None).
Proof.
  intros Hwf.
  assert (Hiff : computeAIMove rnd b self opp = (-1)%Z ↔ full b).
  { split.
    - intros E. pose proof (computeAIMove_reason rnd b self opp) as R. rewrite E in R.
      inversion R as [k ? Hk | k ? ? Hk | ? ? ? Hk | k ? ? ? ? Hk | k ? ? ? ? ? Hk
                     | _ _ Hc Hcor Hsid]; try lia.
      intros i Hi He.
      assert (Hcor' : ∀ j, j ∈ [0; 2; 6; 8] → j ≠ i).
      { intros j Hj ->. assert (Hin : i ∈ empty_among b [0; 2; 6; 8])
          by by apply elem_of_empty_among. rewrite Hcor in Hin. by apply elem_of_nil in Hin. }
      assert (Hsid' : ∀ j, j ∈ [1; 3; 5; 7] → j ≠ i).
      { intros j Hj ->. assert (Hin : i ∈ empty_among b [1; 3; 5; 7])
          by by apply elem_of_empty_among. rewrite Hsid in Hin. by apply elem_of_nil in Hin. }
      assert (i ≠ 4) by (intros ->; done).
      assert (i ≠ 0 ∧ i ≠ 2 ∧ i ≠ 6 ∧ i ≠ 8) as (? & ? & ? & ?).
      { repeat split; intros ->; eapply Hcor'; try reflexivity; set_solver. }
      assert (i ≠ 1 ∧ i ≠ 3 ∧ i ≠ 5 ∧ i ≠ 7) as (? & ? & ? & ?).
      { repeat split; intros ->; eapply Hsid'; try reflexivity; set_solver. }
      lia.
    - intros Hfull. destruct (decide (computeAIMove rnd b self opp = (-1)%Z)) as [|Hne]; [done|].
      destruct (move_reason_empty_cell b self opp _ (computeAIMove_reason rnd b self opp) Hne)
        as (k & _ & Hk & He). by destruct (Hfull k Hk). }
  split; [exact Hiff|]. split.
  - intros (i & Hi & He).
    assert (Hne : computeAIMove rnd b self opp ≠ (-1)%Z).
    { intros E. apply Hiff in E. by apply (E i). }
    destruct (move_reason_empty_cell b self opp _ (computeAIMove_reason rnd b self opp) Hne)
      as (k & Hk & ? & _). eauto.
  - intros σ st Hl Hfull. unfold effect_ai.
    destruct (bool_decide (mode st = ai) && aiTurn st && negb (game_over st)); [|done].
    destruct (computeAIMove_in_spec rnd σ (board st) b aiMark playerMark Hl) as [E _].
    destruct (computeAIMove_in rnd σ (board st) aiMark playerMark) as [idx σ1].
    cbn [fst] in E. rewrite E.
    assert (E' : computeAIMove rnd b aiMark playerMark = (-1)%Z).
    { pose proof (computeAIMove_reason rnd b aiMark playerMark) as R.
      destruct (decide (computeAIMove rnd b aiMark playerMark = (-1)%Z)) as [|Hne]; [done|].
      destruct (move_reason_empty_cell _ _ _ _ R Hne) as (k & _ & Hk & He).
      by destruct (Hfull k Hk). }
    rewrite E'. by rewrite bool_decide_eq_false_2 by (intros H; by apply H).
Qed.

Lemma computeAIMove_none_iff_full_witness :
  (computeAIMove 0 example_board O X = (-1)%Z ↔ full example_board)
  ∧ ((∃ i, i < 9 ∧ sq example_board i = None) →
       ∃ k, k < 9 ∧ computeAIMove 0 example_board O X = Z.of_nat k)
  ∧ (∀ (σ : gmap nat Squares) st, σ !! board st = Some example_board → full example_board →
       (effect_ai 0 σ st).1 = None).
Proof. apply (computeAIMove_none_iff_full 0 example_board O X). reflexivity. Defined.

(** ** Clicks *)

Lemma run_reachable rnd es : ∀ w w',
  reachable rnd w → run rnd w es = Some w' → reachable rnd w'.
Proof.
  induction es as [|e rest IH]; intros w w' Hr; cbn [run].
  - by intros [= <-].
  - destruct (step rnd w e) as [w1|] eqn:Hs; [|done].
    apply IH. by eapply reach_step.
Qed.

Lemma play_reachable rnd es w : play rnd es = Some w → reachable rnd w.
Proof.
  unfold play. destruct (mount rnd) as [w0|] eqn:Hm; [|done].
  apply run_reachable. by apply reach_mount.
Qed.

(** C4, as stated, fails: against the automated player, while it is O's
    turn, a click on an empty cell of an unfinished game changes nothing. *)
Lemma click_ignored_on_ai_turn :
  ∃ w, play first_choice [SelectMode ai; Click 0] = Some w
       ∧ reachable first_choice w
       ∧ ¬ click_as_stated (heap w) (app w) 1.
Proof.
  eexists. split; [vm_compute; reflexivity|]. split.
  - apply (play_reachable first_choice [SelectMode ai; Click 0]). vm_compute. reflexivity.
  - intros H. specialize (H eq_refl eq_refl). vm_compute in H. discriminate.
Qed.

(** C4, amended.  [handleClick] is a no-op (no setter call, store as it
    was, so board and turn stay) when the stored verdict is terminal, when
    the cell is taken, or when the mode is [ai] and it is not X's turn.
    Otherwise it queues a new array that equals the board except for cell
    [i], which holds the mover's mark, flips the turn, and leaves the array
    of the old board as it was. *)
Theorem handleClick_spec (σ : gmap nat Squares) st i b :
  σ !! board st = Some b →
  (game_over st = true ∨ sq b i ≠ None ∨ (mode st = ai ∧ xIsNext st = false) →
     handleClick σ st i = ([], σ) ∧ apply_actions st (handleClick σ st i).1 = st)
  ∧ (game_over st = false → sq b i = None → (mode st = pvp ∨ xIsNext st = true) →
     let r := handleClick σ st i in
     let mark := if xIsNext st then X else O in
     ∃ l, r.1 = [setBoard l; setXIsNext (negb (xIsNext st)); setAITurn false]
          ∧ σ !! l = None
          ∧ r.2 = <[l := js_set b i (Some mark)]> σ
          ∧ r.2 !! board st = Some b
          ∧ sq (read r.2 l) i = Some mark
          ∧ (∀ j, j ≠ i → sq (read r.2 l) j = sq b j)
          ∧ board (apply_actions st r.1) = l
          ∧ xIsNext (apply_actions st r.1) = negb (xIsNext st)).
Proof.
  intros Hl. unfold handleClick. rewrite (read_lookup _ _ _ Hl). split.
  - intros [Hg | [Hc | [Hm Hx]]].
    + by rewrite Hg.
    + apply truthy_true in Hc. rewrite Hc. by rewrite orb_true_r.
    + rewrite Hm, Hx. by destruct (game_over st || truthy (sq b i)).
  - intros Hg He Hturn. apply truthy_false in He as Ht. rewrite Hg, Ht. cbn [orb].
    assert (Hok : bool_decide (mode st = pvp) || bool_decide (mode st = ai) && xIsNext st = true).
    { destruct Hturn as [-> | ->]; [done|]. by destruct (mode st). }
    rewrite Hok. rewrite (surjective_pairing (spread σ (board st))). cbn [fst snd].
    set (mark := if xIsNext st then X else O).
    exists (spread σ (board st)).1.
    rewrite (copy_then_write _ _ _ _ _ Hl).
    assert (Hf : σ !! (spread σ (board st)).1 = None) by apply alloc_fresh.
    repeat split; try done.
    + rewrite lookup_insert_ne; [done|]. intros E. rewrite E in Hf. congruence.
    + unfold read. rewrite lookup_insert_eq, sq_js_set. by rewrite decide_True.
    + intros j Hj. unfold read. rewrite lookup_insert_eq, sq_js_set.
      by rewrite decide_False.
Qed.

Lemma handleClick_spec_witness :
  let σ : gmap nat Squares := {[7 := example_board]} in
  let st := mkApp pvp 7 true false no_status in
  let r := handleClick σ st 2 in
  ∃ l, r.1 = [setBoard l; setXIsNext false; setAITurn false]
       ∧ σ !! l = None
       ∧ r.2 = <[l := js_set example_board 2 (Some X)]> σ
       ∧ r.2 !! 7 = Some example_board
       ∧ sq (read r.2 l) 2 = Some X
       ∧ (∀ j, j ≠ 2 → sq (read r.2 l) j = sq example_board j)
       ∧ board (apply_actions st r.1) = l
       ∧ xIsNext (apply_actions st r.1) = false.
Proof.
  intros σ st.
  apply (proj2 (handleClick_spec σ st 2 example_board eq_refl));
    [reflexivity | reflexivity | by left].
Defined.

(** ** Restart *)

Lemma handleRestart_state (σ : gmap nat Squares) st :
  let r := handleRestart σ st in
  let st' := apply_actions st r.1 in
  r.2 !! board st' = Some emptyBoard
  ∧ xIsNext st' = true
  ∧ status st' = no_status
  ∧ mode st' = mode st.
Proof.
  unfold handleRestart, setAiFirstMove, apply_actions, alloc.
  destruct (bool_decide (mode st = ai) && negb (xIsNext st)); simpl;
    by rewrite lookup_insert_eq.
Qed.

(** C7.  Whatever the state, the setter calls of [handleRestart] leave the
    board as a new array of nine empty cells, the turn with X, and the
    stored verdict at no winner and an empty line; evaluated afresh, that
    board is ongoing as well. *)
Theorem handleRestart_resets (σ : gmap nat Squares) st :
  let r := handleRestart σ st in
  let st' := apply_actions st r.1 in
  read r.2 (board st') = emptyBoard
  ∧ xIsNext st' = true
  ∧ status st' = no_status
  ∧ calculateWinner (read r.2 (board st')) = None
  ∧ mode st' = mode st.
Proof.
  intros r st'. destruct (handleRestart_state σ st) as (Hb & Hx & Hs & Hm).
  fold r st' in Hb, Hx, Hs, Hm. by rewrite (read_lookup _ _ _ Hb).
Qed.

(** ** Commits settle *)

Lemma apply_actions_app st a1 a2 :
  apply_actions st (a1 ++ a2) = apply_actions (apply_actions st a1) a2.
Proof. apply foldl_app. Qed.

Lemma effect_status_keeps σ st st0 :
  mode (apply_actions st0 (effect_status σ st)) = mode st0
  ∧ board (apply_actions st0 (effect_status σ st)) = board st0
  ∧ xIsNext (apply_actions st0 (effect_status σ st)) = xIsNext st0.
Proof.
  unfold effect_status. destruct (calculateWinner (read σ (board st))); [done|].
  by destruct (bool_decide (mode st = ai) && negb (game_over st)
               && (xIsNext st && bool_decide (aiMark = X)
                   || negb (xIsNext st) && bool_decide (aiMark = O))).
Qed.

Lemma effect_mode_keeps_mode σ st st0 :
  mode (apply_actions st0 (effect_mode σ st).1) = mode st0.
Proof.
  unfold effect_mode, setAiFirstMove, alloc.
  by destruct (bool_decide (mode st = ai) && negb (xIsNext st)).
Qed.

Lemma dep_unchanged {A} `{EqDecision A} (f : AppState → A) p st :
  f p = f st → dep_changed f (Some p) st = false.
Proof. intros E. unfold dep_changed. by apply bool_decide_eq_false_2; intros H'. Qed.

Lemma commit_app rnd prev w : app (commit rnd prev w).2 = app w.
Proof.
  unfold commit. destruct (dep_changed mode prev (app w)).
  - destruct (effect_mode (heap w) (app w)) as [a σ1].
    destruct (_ || _ || _ || _); [|done]. by destruct (effect_ai _ _ _).
  - destruct (_ || _ || _ || _); [|done]. by destruct (effect_ai _ _ _).
Qed.

Lemma commit_keeps_mode rnd prev w :
  mode (apply_actions (app w) (commit rnd prev w).1) = mode (app w).
Proof.
  unfold commit. destruct (dep_changed mode prev (app w)).
  - pose proof (effect_mode_keeps_mode (heap w) (app w) (app w)) as Hm.
    destruct (effect_mode (heap w) (app w)) as [a σ1]. cbn [fst] in Hm.
    assert (Hgoal : ∀ acts2, (acts2 = [] ∨ acts2 = effect_status σ1 (app w)) →
              mode (apply_actions (app w) (a ++ acts2)) = mode (app w)).
    { intros acts2 [-> | ->]; [by rewrite app_nil_r|].
      rewrite apply_actions_app. by rewrite (proj1 (effect_status_keeps _ _ _)). }
    destruct (dep_changed board prev (app w));
      (destruct (_ || _ || _ || _); [destruct (effect_ai _ _ _)|]); cbn [fst];
      apply Hgoal; auto.
  - destruct (dep_changed board prev (app w));
      (destruct (_ || _ || _ || _); [destruct (effect_ai _ _ _)|]); cbn [fst app];
      first [apply effect_status_keeps | done].
Qed.

(** With the mode as in the previous render, a commit queues nothing or
    just what the status effect queues. *)
Lemma commit_same_mode rnd p w :
  mode p = mode (app w) →
  (commit rnd (Some p) w).1 = []
  ∨ (commit rnd (Some p) w).1 = effect_status (heap w) (app w).
Proof.
  intros Hm. unfold commit. rewrite (dep_unchanged mode _ _ Hm).
  destruct (dep_changed board (Some p) (app w));
    (destruct (_ || _ || _ || _); [destruct (effect_ai _ _ _)|]); cbn [fst app]; auto.
Qed.

Lemma commit_quiet rnd p w :
  mode p = mode (app w) → board p = board (app w) →
  (commit rnd (Some p) w).1 = [].
Proof.
  intros Hm Hb. unfold commit.
  rewrite (dep_unchanged mode _ _ Hm), (dep_unchanged board _ _ Hb).
  by (destruct (_ || _ || _ || _); [destruct (effect_ai _ _ _)|]).
Qed.

Lemma flush_unfold fuel rnd prev w :
  flush fuel rnd prev w =
  match (commit rnd prev w).1 with
  | [] => Some (commit rnd prev w).2
  | _ :: _ =>
      match fuel with
      | 0 => None
      | S fuel' =>
          flush fuel' rnd (Some (app w))
            (with_app (commit rnd prev w).2 (apply_actions (app w) (commit rnd prev w).1))
      end
  end.
Proof. destruct fuel; cbn [flush]; by destruct (commit rnd prev w) as [[|a acts] w1]. Qed.

Lemma flush_quiet fuel rnd p w :
  mode p = mode (app w) → board p = board (app w) →
  flush fuel rnd (Some p) w = Some (commit rnd (Some p) w).2.
Proof. intros Hm Hb. rewrite flush_unfold. by rewrite (commit_quiet rnd p w Hm Hb). Qed.

Lemma flush_same_mode fuel rnd p w :
  mode p = mode (app w) → is_Some (flush (S fuel) rnd (Some p) w).
Proof.
  intros Hm. rewrite flush_unfold.
  destruct (commit_same_mode rnd p w Hm) as [E | E]; rewrite E.
  - eauto.
  - destruct (effect_status (heap w) (app w)) as [|a acts] eqn:Hs; [eauto|].
    rewrite <- Hs. rewrite flush_quiet; [eauto | |]; cbn [with_app app].
    + symmetry. apply effect_status_keeps.
    + symmetry. apply effect_status_keeps.
Qed.

(** The budget of renders is never used up. *)
Lemma flush_settles fuel rnd prev w : is_Some (flush (S (S fuel)) rnd prev w).
Proof.
  rewrite flush_unfold. destruct ((commit rnd prev w).1) as [|a acts] eqn:E; [eauto|].
  apply flush_same_mode. cbn [with_app app]. rewrite <- E. symmetry.
  apply commit_keeps_mode.
Qed.

(** Every event that can happen is handled. *)
Lemma step_total rnd w e : is_Some (dispatch w e) → is_Some (step rnd w e).
Proof.
  unfold step. intros [[acts w1] ->]. apply (flush_settles 2).
Qed.

Lemma effect_ai_extends rnd (σ : gmap nat Squares) st b :
  σ !! board st = Some b → σ ⊆ (effect_ai rnd σ st).2.
Proof.
  intros Hl. unfold effect_ai.
  destruct (bool_decide (mode st = ai) && aiTurn st && negb (game_over st)); [|done].
  destruct (computeAIMove_in_spec rnd σ (board st) b aiMark playerMark Hl) as [_ S1].
  destruct (computeAIMove_in rnd σ (board st) aiMark playerMark) as [idx σ1].
  cbn [snd] in S1. destruct (bool_decide (idx ≠ (-1)%Z)); [|done].
  rewrite (surjective_pairing (spread σ1 (board st))). cbn [snd].
  etrans; [exact S1|].
  by apply (copy_then_write_extends σ1 (board st) b), (lookup_weaken σ).
Qed.

Lemma commit_extends rnd prev w b :
  heap w !! board (app w) = Some b → heap w ⊆ heap (commit rnd prev w).2.
Proof.
  intros Hl. unfold commit. destruct (dep_changed mode prev (app w)).
  - pose proof (alloc_extends (heap w) emptyBoard) as S1.
    unfold effect_mode. rewrite (surjective_pairing (alloc (heap w) emptyBoard)).
    destruct (_ || _ || _ || _); cbn [snd heap]; [|done].
    rewrite (surjective_pairing (effect_ai _ _ _)). cbn [snd heap].
    etrans; [exact S1|]. apply (effect_ai_extends _ _ _ b). by eapply lookup_weaken.
  - destruct (_ || _ || _ || _); cbn [snd heap]; [|done].
    rewrite (surjective_pairing (effect_ai _ _ _)). cbn [snd heap].
    by apply (effect_ai_extends _ _ _ b).
Qed.

(** After the restart event has settled, the board on screen is empty, the
    turn is X's and no verdict is stored. *)
Lemma restart_settles rnd w :
  game_over (app w) = true →
  ∃ w', step rnd w ClickRestart = Some w'
        ∧ shown w' = emptyBoard
        ∧ xIsNext (app w') = true
        ∧ status (app w') = no_status.
Proof.
  intros Hg. unfold step, dispatch, render_budget. rewrite Hg.
  destruct (handleRestart_state (heap w) (app w)) as (Hb & Hx & Hs & Hm).
  destruct (handleRestart (heap w) (app w)) as [acts σ1]. cbn [fst snd] in Hb, Hx, Hs, Hm.
  set (st1 := apply_actions (app w) acts) in *.
  set (w1 := with_app (mkWorld σ1 (app w) (timers w) (draws w)) st1).
  assert (Hw1 : heap w1 !! board (app w1) = Some emptyBoard) by exact Hb.
  pose proof (commit_extends rnd (Some (app w)) w1 _ Hw1) as S1.
  pose proof (commit_app rnd (Some (app w)) w1) as A1.
  rewrite flush_unfold.
  destruct (commit_same_mode rnd (app w) w1 (eq_sym Hm)) as [E | E]; rewrite E.
  - eexists. split; [reflexivity|]. unfold shown. rewrite A1. cbn [w1 with_app app].
    split; [|done]. apply read_lookup. by eapply lookup_weaken.
  - assert (Hacts : effect_status (heap w1) (app w1) = [setStatus no_status; setAITurn false]).
    { unfold effect_status. rewrite (read_lookup _ _ _ Hw1). cbn [w1 with_app app].
      rewrite Hx. cbn [calculateWinner emptyBoard]. simpl.
      by rewrite !andb_false_r. }
    rewrite Hacts.
    set (st2 := apply_actions (app w1) [setStatus no_status; setAITurn false]).
    set (w2 := with_app (commit rnd (Some (app w)) w1).2 st2).
    assert (Hw2 : heap w2 !! board (app w2) = Some emptyBoard).
    { cbn [w2 with_app app heap]. by eapply lookup_weaken. }
    rewrite flush_quiet by done.
    eexists. split; [reflexivity|]. unfold shown. rewrite commit_app.
    split; [|done]. apply read_lookup. eapply lookup_weaken; [exact Hw2|].
    by apply (commit_extends _ _ _ emptyBoard).
Qed.

(** ** Turn alternation *)

Lemma ai_runs_ahead_by_play rnd w :
  play rnd [SelectMode ai; Click 0; TimerFires; TimerFires; TimerFires] = Some w →
  count_mark X (shown w) = 1 → count_mark O (shown w) = 3 →
  ai_runs_ahead rnd.
Proof.
  intros Hp HX HO. exists w. split; [done|]. split; [by eapply play_reachable|].
  split; [done|]. split; [done|]. unfold balanced. lia.
Qed.

Lemma count_mark_cons m c (b : Squares) :
  count_mark m (c :: b) = (if decide (c = Some m) then 1 else 0) + count_mark m b.
Proof. unfold count_mark. rewrite filter_cons. by destruct (decide (c = Some m)). Qed.

Lemma count_mark_fill (b : Squares) i m m' :
  b !! i = Some None →
  count_mark m' (<[i := Some m]> b) = (if decide (m = m') then 1 else 0) + count_mark m' b.
Proof.
  revert i. induction b as [|c b IH]; intros [|i] Hi; try done.
  - injection Hi as ->. change (<[0 := Some m]> (None :: b)) with (Some m :: b).
    rewrite !count_mark_cons. rewrite (decide_False (P := None = Some m')) by done.
    destruct (decide (m = m')) as [-> | Hne].
    + by rewrite decide_True.
    + rewrite decide_False; [done | congruence].
  - change (<[S i := Some m]> (c :: b)) with (c :: <[i := Some m]> b).
    rewrite !count_mark_cons, (IH i Hi). lia.
Qed.

Lemma turn_consistent_balanced b x_next : turn_consistent b x_next → balanced b.
Proof. unfold turn_consistent, balanced. destruct x_next; lia. Qed.

(** In mode [pvp] a click keeps counts and turn in step, so the marks stay
    balanced. *)
Lemma pvp_click_alternates (σ : gmap nat Squares) st i b :
  σ !! board st = Some b →
  i < length b →
  turn_consistent b (xIsNext st) →
  let r := handleClick σ st i in
  let st' := apply_actions st r.1 in
  mode st = pvp →
  turn_consistent (read r.2 (board st')) (xIsNext st').
Proof.
  intros Hl Hi Ht r st' Hm. subst r st'. unfold handleClick.
  rewrite (read_lookup _ _ _ Hl).
  destruct (game_over st || truthy (sq b i)) eqn:Hg.
  { cbn [fst snd apply_actions foldl]. by rewrite (read_lookup _ _ _ Hl). }
  apply orb_false_iff in Hg as [_ He]. apply truthy_false in He.
  rewrite Hm. cbn [bool_decide decide_rel orb].
  rewrite bool_decide_eq_true_2 by done. cbn [orb].
  rewrite (surjective_pairing (spread σ (board st))). cbn [fst snd].
  rewrite (copy_then_write _ _ _ _ _ Hl).
  unfold apply_actions. cbn [foldl apply_action board xIsNext].
  unfold read. rewrite lookup_insert_eq, js_set_in_range by done.
  assert (Hc : b !! i = Some None).
  { destruct (lookup_lt_is_Some_2 b i Hi) as [c Hc]. rewrite Hc.
    by rewrite <- (sq_lookup _ _ _ Hc), He. }
  unfold turn_consistent in *.
  rewrite !(count_mark_fill _ _ _ _ Hc).
  destruct (xIsNext st); cbn [negb];
    repeat (first [rewrite decide_True by done | rewrite decide_False by done]); lia.
Qed.

(** C8 fails on the code.  In mode [ai] the effect that moves for the
    automated player runs again after its own move, while [aiTurn] is still
    set: one click on cell 0 and three fired timers reach a board with one X
    and three O, whichever of the three free corners the draw selects. *)
Theorem ai_moves_out_of_turn :
  ai_runs_ahead (λ _, 0) ∧ ai_runs_ahead (λ _, 1) ∧ ai_runs_ahead (λ _, 2).
Proof.
  split; [|split]; eapply ai_runs_ahead_by_play;
    first [vm_compute; reflexivity | reflexivity].
Qed.

(** ** Examples of the specification *)

Example tie_board :
  calculateWinner [Some X; Some O; Some X; Some O; Some X; Some O; Some O; Some X; Some O]
  = Some (mkResult TieGame []).
Proof. reflexivity. Qed.

Example mount_ok : ∀ rnd, ∃ w, mount rnd = Some w ∧ shown w = emptyBoard.
Proof. intros rnd. eexists. split; [vm_compute; reflexivity | reflexivity]. Qed.

(** Empty board, mode [pvp], click on cell 0: X is placed and the turn
    passes to O. *)
Example pvp_first_click :
  ∃ w, play first_choice [Click 0] = Some w
       ∧ shown w = [Some X; None; None; None; None; None; None; None; None]
       ∧ xIsNext (app w) = false.
Proof. eexists. split; [vm_compute; reflexivity | split; reflexivity]. Qed.

(** Against the automated player: after the human's X on cell 0 and one
    timer, O sits on the centre and it is X's turn, yet a second timer is
    armed already. *)
Example second_timer_armed :
  ∃ w, play first_choice [SelectMode ai; Click 0; TimerFires] = Some w
       ∧ shown w = [Some X; None; None; None; Some O; None; None; None; None]
       ∧ xIsNext (app w) = true
       ∧ length (timers w) = 1.
Proof. eexists. split; [vm_compute; reflexivity | repeat split]. Qed.

(** ** The move armed by the automated player's effect *)

Lemma heap_ok_insert (σ : gmap nat Squares) l b :
  heap_ok σ → length b = 9 → heap_ok (<[l := b]> σ).
Proof.
  intros Hok Hb l' b' H. destruct (decide (l = l')) as [-> | Hne].
  - rewrite lookup_insert_eq in H. by injection H as <-.
  - rewrite lookup_insert_ne in H by done. by eapply Hok.
Qed.

Lemma length_js_set (b : Squares) i v : i < length b → length (js_set b i v) = length b.
Proof. intros H. rewrite js_set_in_range by done. apply length_insert. Qed.

Lemma try_cells_in_heap_ok (σ : gmap nat Squares) l b m idxs :
  σ !! l = Some b → heap_ok σ → Forall (λ i, i < 9) idxs →
  heap_ok (try_cells_in σ l m idxs).2.
Proof.
  revert σ. induction idxs as [|i rest IH]; intros σ Hl Hok Hidx; cbn [try_cells_in].
  - done.
  - apply Forall_cons in Hidx as [Hi Hrest].
    rewrite (read_lookup _ _ _ Hl).
    destruct (truthy (sq b i)); cbn [negb]; [by apply IH|].
    rewrite (surjective_pairing (spread σ l)).
    rewrite (copy_then_write_read _ _ _ _ _ Hl).
    pose proof (copy_then_write_extends σ l b i (Some m) Hl) as Hsub.
    assert (Hok' : heap_ok (write (spread σ l).2 (spread σ l).1 i (Some m))).
    { rewrite (copy_then_write _ _ _ _ _ Hl). apply heap_ok_insert; [done|].
      rewrite length_js_set; rewrite (Hok _ _ Hl); done. }
    destruct (winner_is m (calculateWinner (js_set b i (Some m)))); [done|].
    apply IH; [by eapply lookup_weaken | done | done].
Qed.

Lemma seq_below n : Forall (λ i, i < n) (seq 0 n).
Proof. apply Forall_forall. intros i Hi%elem_of_seq. lia. Qed.

Lemma computeAIMove_in_heap_ok rnd (σ : gmap nat Squares) l b self opp :
  σ !! l = Some b → heap_ok σ → heap_ok (computeAIMove_in rnd σ l self opp).2.
Proof.
  intros Hl Hok. unfold computeAIMove_in.
  pose proof (try_cells_in_heap_ok σ l b self (seq 0 9) Hl Hok (seq_below 9)) as Hok1.
  destruct (try_cells_in_spec σ l b self (seq 0 9) Hl) as [_ S1].
  destruct (try_cells_in σ l self (seq 0 9)) as [r1 σ1]. cbn [snd] in Hok1, S1.
  destruct r1 as [k|]; [done|].
  pose proof (lookup_weaken _ _ _ _ Hl S1) as Hl1.
  pose proof (try_cells_in_heap_ok σ1 l b opp (seq 0 9) Hl1 Hok1 (seq_below 9)) as Hok2.
  destruct (try_cells_in σ1 l opp (seq 0 9)) as [r2 σ2]. cbn [snd] in Hok2.
  destruct r2 as [k|]; [done|].
  destruct (negb (truthy (sq (read σ2 l) 4))); [done|].
  destruct (negb (length (empty_among (read σ2 l) [0; 2; 6; 8]) =? 0)); [done|].
  by destruct (negb (length (empty_among (read σ2 l) [1; 3; 5; 7]) =? 0)).
Qed.

(** What [effect_ai] does, given the board it reads. *)
Lemma effect_ai_cases rnd (σ : gmap nat Squares) st b :
  σ !! board st = Some b →
  ((effect_ai rnd σ st).1 = None)
  ∨ (∃ l k, (effect_ai rnd σ st).1 = Some l
        ∧ mode st = ai ∧ aiTurn st = true ∧ game_over st = false
        ∧ computeAIMove rnd b aiMark playerMark = Z.of_nat k
        ∧ k < 9 ∧ sq b k = None
        ∧ σ !! l = None
        ∧ (effect_ai rnd σ st).2 !! l = Some (js_set b k (Some aiMark))).
Proof.
  intros Hl. unfold effect_ai.
  destruct (bool_decide (mode st = ai)) eqn:Hm; [|by left].
  destruct (aiTurn st) eqn:Ha; [|by left].
  destruct (game_over st) eqn:Hg; [by left|]. cbn [andb negb].
  destruct (computeAIMove_in_spec rnd σ (board st) b aiMark playerMark Hl) as [E S1].
  destruct (computeAIMove_in rnd σ (board st) aiMark playerMark) as [idx σ1].
  cbn [fst snd] in E, S1. subst idx.
  destruct (bool_decide (computeAIMove rnd b aiMark playerMark ≠ (-1)%Z)) eqn:Hne; [|by left].
  apply bool_decide_eq_true in Hne.
  destruct (move_reason_empty_cell b aiMark playerMark _
              (computeAIMove_reason rnd b aiMark playerMark) Hne) as (k & Hk & Hk9 & He).
  right. pose proof (lookup_weaken _ _ _ _ Hl S1) as Hl1.
  rewrite (surjective_pairing (spread σ1 (board st))). cbn [fst snd].
  exists (spread σ1 (board st)).1, k. rewrite Hk, Nat2Z.id.
  rewrite (copy_then_write _ _ _ _ _ Hl1), lookup_insert_eq.
  apply bool_decide_eq_true in Hm.
  repeat split; try done.
  assert (Hf : σ1 !! (spread σ1 (board st)).1 = None) by apply alloc_fresh.
  destruct (σ !! (spread σ1 (board st)).1) as [x|] eqn:Hx; [|done].
  by rewrite (lookup_weaken _ _ _ _ Hx S1) in Hf.
Qed.

Lemma effect_ai_heap_ok rnd (σ : gmap nat Squares) st b :
  σ !! board st = Some b → heap_ok σ → heap_ok (effect_ai rnd σ st).2.
Proof.
  intros Hl Hok. unfold effect_ai.
  destruct (bool_decide (mode st = ai) && aiTurn st && negb (game_over st)); [|done].
  pose proof (computeAIMove_in_heap_ok rnd σ (board st) b aiMark playerMark Hl Hok) as Hok1.
  destruct (computeAIMove_in_spec rnd σ (board st) b aiMark playerMark Hl) as [E S1].
  destruct (computeAIMove_in rnd σ (board st) aiMark playerMark) as [idx σ1].
  cbn [fst snd] in E, S1, Hok1. subst idx.
  destruct (bool_decide (computeAIMove rnd b aiMark playerMark ≠ (-1)%Z)) eqn:Hne; [|done].
  apply bool_decide_eq_true in Hne.
  destruct (move_reason_empty_cell b aiMark playerMark _
              (computeAIMove_reason rnd b aiMark playerMark) Hne) as (k & Hk & Hk9 & He).
  pose proof (lookup_weaken _ _ _ _ Hl S1) as Hl1.
  rewrite (surjective_pairing (spread σ1 (board st))). cbn [snd].
  rewrite (copy_then_write _ _ _ _ _ Hl1). apply heap_ok_insert; [done|].
  rewrite Hk, Nat2Z.id, length_js_set; rewrite (Hok _ _ Hl); done.
Qed.

(** ** What one commit does *)

Lemma effect_status_status σ st st0 :
  status (apply_actions st0 (effect_status σ st)) = verdict_status (read σ (board st)).
Proof.
  unfold effect_status, verdict_status.
  destruct (calculateWinner (read σ (board st))); [done|].
  by destruct (bool_decide (mode st = ai) && negb (game_over st)
               && (xIsNext st && bool_decide (aiMark = X)
                   || negb (xIsNext st) && bool_decide (aiMark = O))).
Qed.

Lemma effect_status_nonempty σ st : effect_status σ st ≠ [].
Proof. unfold effect_status. by destruct (calculateWinner (read σ (board st))). Qed.

Lemma effect_mode_store (σ : gmap nat Squares) st :
  (effect_mode σ st).2 = (alloc σ emptyBoard).2.
Proof. unfold effect_mode. by rewrite (surjective_pairing (alloc σ emptyBoard)). Qed.

Lemma effect_mode_state (σ : gmap nat Squares) st st0 :
  let st' := apply_actions st0 (effect_mode σ st).1 in
  board st' = (alloc σ emptyBoard).1
  ∧ xIsNext st' = true
  ∧ status st' = no_status
  ∧ mode st' = mode st0.
Proof.
  unfold effect_mode, setAiFirstMove. rewrite (surjective_pairing (alloc σ emptyBoard)).
  by destruct (bool_decide (mode st = ai) && negb (xIsNext st)).
Qed.

Lemma effect_mode_nonempty (σ : gmap nat Squares) st : (effect_mode σ st).1 ≠ [].
Proof. unfold effect_mode. by rewrite (surjective_pairing (alloc σ emptyBoard)). Qed.

(** The parts of a commit: the calls of the mode effect and the store it
    leaves, the calls of the status effect, and the timer and store of the
    automated player's effect. *)
Lemma commit_shape rnd prev w :
  ∃ acts1 σ1 acts2 t σ2 d,
    commit rnd prev w = (acts1 ++ acts2, mkWorld σ2 (app w) (timers w ++ option_list t) d)
    ∧ ((dep_changed mode prev (app w) = true
        ∧ acts1 = (effect_mode (heap w) (app w)).1 ∧ σ1 = (effect_mode (heap w) (app w)).2)
       ∨ (dep_changed mode prev (app w) = false ∧ acts1 = [] ∧ σ1 = heap w))
    ∧ ((dep_changed board prev (app w) = true ∧ acts2 = effect_status σ1 (app w))
       ∨ (dep_changed board prev (app w) = false ∧ acts2 = []))
    ∧ ((t = (effect_ai (rnd (draws w)) σ1 (app w)).1
        ∧ σ2 = (effect_ai (rnd (draws w)) σ1 (app w)).2)
       ∨ (t = None ∧ σ2 = σ1)).
Proof.
  unfold commit.
  destruct (dep_changed mode prev (app w)) eqn:Hm;
    [rewrite (surjective_pairing (effect_mode (heap w) (app w)))|];
    destruct (dep_changed board prev (app w)) eqn:Hb;
    (destruct (_ || _ || _ || _);
     [ rewrite (surjective_pairing (effect_ai _ _ _));
       do 6 eexists; (split; [reflexivity|])
     | eexists _, _, _, None, _, _;
       (split; [change (option_list (@None nat)) with (@nil nat);
               rewrite (app_nil_r (timers w)); reflexivity|]) ]);
    (split; [|split]); first [by left | by right].
Qed.

(** A commit keeps what the store holds and the arrays well-formed. *)
Lemma commit_parts rnd prev w b :
  heap_ok (heap w) → heap w !! board (app w) = Some b →
  Forall (λ l, is_Some (heap w !! l)) (timers w) →
  ∃ acts1 σ1 acts2 t σ2 d,
    commit rnd prev w = (acts1 ++ acts2, mkWorld σ2 (app w) (timers w ++ option_list t) d)
    ∧ ((dep_changed mode prev (app w) = true
        ∧ acts1 = (effect_mode (heap w) (app w)).1 ∧ σ1 = (effect_mode (heap w) (app w)).2)
       ∨ (dep_changed mode prev (app w) = false ∧ acts1 = [] ∧ σ1 = heap w))
    ∧ ((dep_changed board prev (app w) = true ∧ acts2 = effect_status σ1 (app w))
       ∨ (dep_changed board prev (app w) = false ∧ acts2 = []))
    ∧ heap_ok σ2 ∧ heap w ⊆ σ1 ∧ σ1 ⊆ σ2
    ∧ Forall (λ l, is_Some (σ2 !! l)) (timers w ++ option_list t).
Proof.
  intros Hok Hl Ht.
  destruct (commit_shape rnd prev w) as (acts1 & σ1 & acts2 & t & σ2 & d & Hc & Hm & Hb & Hai).
  exists acts1, σ1, acts2, t, σ2, d. split; [done|]. split; [done|]. split; [done|].
  assert (heap_ok σ1 ∧ heap w ⊆ σ1) as [Hok1 S1].
  { destruct Hm as [(_ & _ & ->) | (_ & _ & ->)]; [|done].
    rewrite effect_mode_store. split; [|apply alloc_extends].
    rewrite alloc_store. by apply heap_ok_insert. }
  pose proof (lookup_weaken _ _ _ _ Hl S1) as Hl1.
  assert (heap_ok σ2 ∧ σ1 ⊆ σ2 ∧ Forall (λ l, is_Some (σ2 !! l)) (option_list t))
    as (Hok2 & S2 & Ht2).
  { destruct Hai as [[-> ->] | [-> ->]]; [|by repeat split].
    split; [by apply (effect_ai_heap_ok _ _ _ b)|].
    split; [by apply (effect_ai_extends _ _ _ b)|].
    destruct (effect_ai_cases (rnd (draws w)) σ1 (app w) b Hl1)
      as [-> | (l & k & -> & _ & _ & _ & _ & _ & _ & _ & Hset)]; [constructor|].
    cbn [option_list]. apply Forall_singleton. by rewrite Hset. }
  split; [done|]. split; [done|]. split; [done|].
  apply Forall_app. split; [|done].
  eapply Forall_impl; [exact Ht|]. intros l [x Hx]. exists x.
  eapply lookup_weaken; [exact Hx|]. by etrans.
Qed.

Lemma board_after_commit_acts (σ σ1 : gmap nat Squares) st acts1 acts2 prev :
  ((dep_changed mode prev st = true
    ∧ acts1 = (effect_mode σ st).1 ∧ σ1 = (effect_mode σ st).2)
   ∨ (dep_changed mode prev st = false ∧ acts1 = [] ∧ σ1 = σ)) →
  ((dep_changed board prev st = true ∧ acts2 = effect_status σ1 st)
   ∨ (dep_changed board prev st = false ∧ acts2 = [])) →
  board (apply_actions st (acts1 ++ acts2)) =
    (if dep_changed mode prev st then (alloc σ emptyBoard).1 else board st)
  ∧ mode (apply_actions st (acts1 ++ acts2)) = mode st
  ∧ (dep_changed mode prev st = false → dep_changed board prev st = true →
     status (apply_actions st (acts1 ++ acts2)) = verdict_status (read σ (board st))).
Proof.
  intros Hm Hb. rewrite apply_actions_app.
  assert (board (apply_actions (apply_actions st acts1) acts2)
            = board (apply_actions st acts1)
          ∧ mode (apply_actions (apply_actions st acts1) acts2)
            = mode (apply_actions st acts1)) as [-> ->].
  { destruct Hb as [(_ & ->) | (_ & ->)]; [|done].
    split; apply effect_status_keeps. }
  destruct Hm as [(-> & -> & ->) | (-> & -> & ->)].
  - destruct (effect_mode_state σ st st) as (Hbd & _ & _ & Hmd).
    split; [done|]. split; [done|]. done.
  - split; [done|]. split; [done|]. intros _ Hbt.
    destruct Hb as [(_ & ->) | (Hbf & _)]; [|congruence].
    apply effect_status_status.
Qed.

Lemma fresh_differs (σ : gmap nat Squares) l arr : is_Some (σ !! l) → (alloc σ arr).1 ≠ l.
Proof. intros [x Hx] E. pose proof (alloc_fresh σ arr) as Hf. rewrite E in Hf. congruence. Qed.

(** One commit of the invariant: either nothing is queued and the world is
    in order, or the next render is one after which the status effect is due
    or the status already fits. *)
Lemma commit_invariant rnd prev w :
  world_ok w →
  (dep_changed board prev (app w) = true ∨ dep_changed mode prev (app w) = true
   ∨ status_fresh w) →
  ((commit rnd prev w).1 = [] →
     world_ok (commit rnd prev w).2 ∧ status_fresh (commit rnd prev w).2)
  ∧ ((commit rnd prev w).1 ≠ [] →
     let w2 := with_app (commit rnd prev w).2 (apply_actions (app w) (commit rnd prev w).1) in
     world_ok w2
     ∧ (dep_changed board (Some (app w)) (app w2) = true
        ∨ dep_changed mode (Some (app w)) (app w2) = true
        ∨ status_fresh w2)).
Proof.
  intros (Hok & [b Hl] & Ht) Hpre.
  destruct (commit_parts rnd prev w b Hok Hl Ht)
    as (acts1 & σ1 & acts2 & t & σ2 & d & Hc & Hm & Hb & Hok' & S1 & S2 & Ht').
  assert (Hsub : heap w ⊆ σ2) by by etrans.
  pose proof (lookup_weaken _ _ _ _ Hl Hsub) as Hl2.
  destruct (board_after_commit_acts _ _ _ _ _ _ Hm Hb) as (Hbd & Hmd & Hst).
  rewrite Hc in *. cbn [fst snd heap timers app with_app] in *.
  split.
  - intros Hnil. apply app_eq_nil in Hnil as [-> ->].
    destruct Hm as [(_ & Hne & _) | (Hmf & _ & ->)];
      [by destruct (effect_mode_nonempty (heap w) (app w))|].
    destruct Hb as [(_ & Hne) | (Hbf & _)];
      [by destruct (effect_status_nonempty (heap w) (app w))|].
    rewrite Hmf, Hbf in Hpre. destruct Hpre as [? | [? | Hfresh]]; try done.
    split; [split; [done|]; split; [by exists b | done]|].
    unfold status_fresh, shown in *. cbn [app heap].
    rewrite (read_lookup _ _ _ Hl2). by rewrite (read_lookup _ _ _ Hl) in Hfresh.
  - intros Hne. cbv zeta. unfold world_ok, with_app. cbn [app heap timers].
    destruct (dep_changed mode prev (app w)) eqn:Hmc.
    + assert (Hnew : σ2 !! (alloc (heap w) emptyBoard).1 = Some emptyBoard).
      { destruct Hm as [(_ & _ & ->) | (? & _)]; [|done].
        eapply lookup_weaken; [|exact S2]. rewrite effect_mode_store, alloc_store.
        apply lookup_insert_eq. }
      split.
      * split; [done|]. split; [|done]. rewrite Hbd. eauto.
      * left. unfold dep_changed. apply bool_decide_eq_true_2. rewrite Hbd.
        intros E. by apply (fresh_differs (heap w) (board (app w)) emptyBoard).
    + destruct Hm as [(? & _) | (_ & -> & ->)]; [done|]. rewrite app_nil_l in *.
      destruct Hb as [(Hbt & ->) | (_ & ->)]; [|done].
      split; [split; [done|]; split; [rewrite Hbd; eauto | done]|].
      right. right. unfold status_fresh, shown. cbn [app heap].
      rewrite Hbd, (read_lookup _ _ _ Hl2), (Hst eq_refl Hbt).
      by rewrite (read_lookup _ _ _ Hl).
Qed.

(** Rendering until quiet re-establishes the invariants, provided the
    status effect is due to run or the status is already that of the
    board. *)
Lemma flush_invariant rnd fuel : ∀ prev w w',
  world_ok w →
  (dep_changed board prev (app w) = true ∨ dep_changed mode prev (app w) = true
   ∨ status_fresh w) →
  flush fuel rnd prev w = Some w' →
  world_ok w' ∧ status_fresh w'.
Proof.
  induction fuel as [|fuel IH]; intros prev w w' Hw Hpre; rewrite flush_unfold;
    destruct (commit_invariant rnd prev w Hw Hpre) as [Hnil Hcons];
    destruct ((commit rnd prev w).1) as [|a acts] eqn:E.
  - intros [= <-]. by apply Hnil.
  - done.
  - intros [= <-]. by apply Hnil.
  - destruct Hcons as [Hw2 Hpre2]; [done|]. by apply IH.
Qed.

(** ** Invariants of every reachable world *)

Lemma world_ok_extend (σ σ' : gmap nat Squares) st st' ts d d' :
  world_ok (mkWorld σ st ts d) → heap_ok σ' → σ ⊆ σ' → is_Some (σ' !! board st') →
  world_ok (mkWorld σ' st' ts d').
Proof.
  intros (_ & _ & Ht) Hok Hsub Hb. split; [done|]. split; [done|]. cbn [heap timers] in *.
  eapply Forall_impl; [exact Ht|]. intros l [x Hx]. exists x. by eapply lookup_weaken.
Qed.

(** The render that follows an event starts from a world in order, in which
    the status effect is due or the status still fits the board. *)
Lemma dispatch_invariant w e acts w1 :
  world_ok w → status_fresh w →
  dispatch w e = Some (acts, w1) →
  world_ok (with_app w1 (apply_actions (app w) acts))
  ∧ (dep_changed board (Some (app w)) (apply_actions (app w) acts) = true
     ∨ dep_changed mode (Some (app w)) (apply_actions (app w) acts) = true
     ∨ status_fresh (with_app w1 (apply_actions (app w) acts))).
Proof.
  intros Hw Hfresh. destruct w as [σ st ts d]. pose proof Hw as (Hok & [b Hl] & Ht).
  cbn [heap app timers draws] in *.
  destruct e as [i | m | | ]; cbn [dispatch heap app timers draws].
  - destruct (decide (i < 9)) as [Hi|]; [|done].
    unfold handleClick. rewrite (read_lookup _ _ _ Hl).
    destruct (game_over st || truthy (sq b i)).
    { intros [= <- <-]. split; [done|]. by right; right. }
    destruct (bool_decide (mode st = pvp) || bool_decide (mode st = ai) && xIsNext st).
    2: { intros [= <- <-]. split; [done|]. by right; right. }
    rewrite (surjective_pairing (spread σ (board st))).
    rewrite (copy_then_write _ _ _ _ _ Hl). intros [= <- <-].
    unfold with_app. cbn [heap app timers draws apply_actions foldl apply_action board].
    split.
    + eapply world_ok_extend; [exact Hw | | |].
      * apply heap_ok_insert; [done|]. rewrite length_js_set; rewrite (Hok _ _ Hl); done.
      * apply insert_subseteq. unfold spread. apply (alloc_fresh σ (read σ (board st))).
      * rewrite lookup_insert_eq. eauto.
    + left. apply bool_decide_eq_true_2. intros E. symmetry in E. revert E.
      unfold spread. apply (fresh_differs σ (board st) (read σ (board st))). eauto.
  - intros [= <- <-]. unfold with_app.
    cbn [heap app timers draws apply_actions foldl apply_action].
    split; [by eapply world_ok_extend|].
    destruct (decide (mode st = m)) as [<- | Hne].
    + right. right. exact Hfresh.
    + right. left. by apply bool_decide_eq_true_2.
  - destruct (game_over st); [|done].
    unfold handleRestart. rewrite (surjective_pairing (alloc σ emptyBoard)).
    intros [= <- <-]. unfold with_app. cbn [heap app timers draws].
    pose proof (alloc_fresh σ emptyBoard) as Hf.
    pose proof (fresh_differs σ (board st) emptyBoard (ex_intro _ b Hl)) as Hd.
    unfold alloc in Hf, Hd. cbn [fst] in Hf, Hd.
    assert (Hbd : board (apply_actions st
                    (setBoard (fresh (dom σ)) :: setXIsNext true :: setStatus no_status
                     :: setAiFirstMove st)) = fresh (dom σ)).
    { unfold setAiFirstMove. by destruct (bool_decide (mode st = ai) && negb (xIsNext st)). }
    split.
    + eapply world_ok_extend; [exact Hw | | by apply insert_subseteq |].
      * by apply heap_ok_insert.
      * rewrite Hbd, lookup_insert_eq. eauto.
    + left. apply bool_decide_eq_true_2. rewrite Hbd. by intros E.
  - destruct ts as [|l rest]; [done|]. intros [= <- <-].
    apply Forall_cons in Ht as [Hlt Hrest]. unfold with_app.
    cbn [heap app timers draws timer_callback apply_actions foldl apply_action board].
    split; [by repeat split|].
    destruct (decide (board st = l)) as [<- | Hne].
    + right. right. exact Hfresh.
    + left. by apply bool_decide_eq_true_2.
Qed.

Lemma initial_world_ok : world_ok initial_world.
Proof.
  unfold initial_world. rewrite (surjective_pairing (alloc ∅ emptyBoard)).
  rewrite alloc_store. split; [|split]; cbn [heap app timers board].
  - by apply heap_ok_insert; [intros l b H; rewrite lookup_empty in H|].
  - rewrite lookup_insert_eq. eauto.
  - constructor.
Qed.

Lemma reachable_invariant rnd w : reachable rnd w → world_ok w ∧ status_fresh w.
Proof.
  induction 1 as [w Hm | w e w' Hr [Hw Hf] Hs].
  - unfold mount in Hm. apply (flush_invariant rnd render_budget None initial_world w);
      [apply initial_world_ok | left; reflexivity | exact Hm].
  - unfold step in Hs. destruct (dispatch w e) as [[acts w1]|] eqn:Hd; [|done].
    destruct (dispatch_invariant w e acts w1 Hw Hf Hd) as [Hw2 Hpre].
    eapply flush_invariant; [exact Hw2 | exact Hpre | exact Hs].
Qed.

(** X1.  In every state the component can reach, the stored status is what
    [calculateWinner] returns for the board on screen (with [null] stored as
    no winner and an empty line); so the restart button is offered exactly
    when that board is won or full. *)
Theorem stored_status_is_fresh rnd w :
  reachable rnd w →
  status (app w) = verdict_status (shown w)
  ∧ (is_Some (dispatch w ClickRestart) ↔ is_Some (calculateWinner (shown w))).
Proof.
  intros [_ Hf]%reachable_invariant. split; [exact Hf|].
  cbn [dispatch]. unfold game_over. rewrite Hf. unfold verdict_status.
  rewrite (surjective_pairing (handleRestart (heap w) (app w))).
  destruct (calculateWinner (shown w)) as [r|]; cbn [status_of status_winner no_status].
  - split; eauto.
  - split; intros [x Hx]; done.
Qed.

Lemma stored_status_is_fresh_witness :
  ∃ w, play first_choice [Click 0; Click 3; Click 1; Click 4; Click 2] = Some w
       ∧ status (app w) = mkStatus (Some (Wins X)) [0; 1; 2]
       ∧ status (app w) = verdict_status (shown w)
       ∧ (is_Some (dispatch w ClickRestart) ↔ is_Some (calculateWinner (shown w))).
Proof.
  eexists. split; [vm_compute; reflexivity|]. split; [reflexivity|].
  apply (stored_status_is_fresh first_choice).
  apply (play_reachable first_choice [Click 0; Click 3; Click 1; Click 4; Click 2]).
  vm_compute. reflexivity.
Defined.

(** X2.  In every state the component can reach, the board on screen has
    nine cells, and so has the board held by every armed timer. *)
Theorem reachable_boards_have_nine_cells rnd w :
  reachable rnd w →
  well_formed (shown w) ∧ Forall (λ l, well_formed (read (heap w) l)) (timers w).
Proof.
  intros [(Hok & [b Hl] & Ht) _]%reachable_invariant. split.
  - unfold shown, well_formed. rewrite (read_lookup _ _ _ Hl). by eapply Hok.
  - eapply Forall_impl; [exact Ht|]. intros l [x Hx]. unfold well_formed.
    rewrite (read_lookup _ _ _ Hx). by eapply Hok.
Qed.

Lemma reachable_boards_have_nine_cells_witness :
  ∃ w, play first_choice [SelectMode ai; Click 0] = Some w
       ∧ length (timers w) = 1
       ∧ well_formed (shown w)
       ∧ Forall (λ l, well_formed (read (heap w) l)) (timers w).
Proof.
  eexists. split; [vm_compute; reflexivity|]. split; [reflexivity|].
  apply (reachable_boards_have_nine_cells first_choice).
  apply (play_reachable first_choice [SelectMode ai; Click 0]).
  vm_compute. reflexivity.
Defined.

Lemma no_move_only_when_full rnd (b : Squares) self opp :
  computeAIMove rnd b self opp = (-1)%Z → full b.
Proof.
  intros E. pose proof (computeAIMove_reason rnd b self opp) as R. rewrite E in R.
  inversion R as [k ? Hk | k ? ? Hk | ? ? ? Hk | k ? ? ? ? Hk | k ? ? ? ? ? Hk
                 | _ _ Hc Hcor Hsid]; try lia.
  intros i Hi He.
  assert (Hnot : ∀ xs, empty_among b xs = [] → i ∉ xs).
  { intros xs Hxs Hin. assert (Hin' : i ∈ empty_among b xs) by by apply elem_of_empty_among.
    rewrite Hxs in Hin'. by apply elem_of_nil in Hin'. }
  pose proof (Hnot _ Hcor) as H1. pose proof (Hnot _ Hsid) as H2.
  assert (i ≠ 4) by (intros ->; done).
  rewrite !not_elem_of_cons in H1, H2. lia.
Qed.

(** X3.  When the automated player's effect arms a timer, the mode is [ai],
    [aiTurn] is set and no winner is stored; the armed array is new and
    equals the board the effect read except for one cell that was empty and
    now holds O; the board itself is left as it was.  With those three
    conditions and an empty cell on the board, a timer is armed. *)
Theorem effect_ai_arms_one_move rnd (σ : gmap nat Squares) st b :
  σ !! board st = Some b → well_formed b →
  (∀ l, (effect_ai rnd σ st).1 = Some l →
     mode st = ai ∧ aiTurn st = true ∧ game_over st = false
     ∧ σ !! l = None
     ∧ (effect_ai rnd σ st).2 !! board st = Some b
     ∧ ∃ k, k < 9 ∧ sq b k = None
            ∧ (effect_ai rnd σ st).2 !! l = Some (<[k := Some O]> b))
  ∧ (mode st = ai → aiTurn st = true → game_over st = false → ¬ full b →
     is_Some (effect_ai rnd σ st).1).
Proof.
  intros Hl Hwf. split.
  - intros l Harm.
    destruct (effect_ai_cases rnd σ st b Hl)
      as [E | (l' & k & E & Hm & Ha & Hg & _ & Hk & He & Hf & Hset)]; [congruence|].
    rewrite Harm in E. injection E as <-.
    split; [done|]. split; [done|]. split; [done|]. split; [done|].
    split; [eapply lookup_weaken; [exact Hl | by apply (effect_ai_extends _ _ _ b)]|].
    exists k. split; [done|]. split; [done|].
    rewrite Hset. f_equal. apply js_set_in_range. unfold well_formed in Hwf. lia.
  - intros Hm Ha Hg Hnf. unfold effect_ai. rewrite Hm, Ha, Hg.
    rewrite bool_decide_eq_true_2 by done. cbn [andb negb].
    destruct (computeAIMove_in_spec rnd σ (board st) b aiMark playerMark Hl) as [E _].
    destruct (computeAIMove_in rnd σ (board st) aiMark playerMark) as [idx σ1].
    cbn [fst] in E. subst idx.
    rewrite bool_decide_eq_true_2.
    + rewrite (surjective_pairing (spread σ1 (board st))). cbn [fst]. eauto.
    + intros E. by apply Hnf, (no_move_only_when_full rnd b aiMark playerMark).
Qed.

Lemma effect_ai_arms_one_move_witness :
  let σ : gmap nat Squares := {[7 := example_board]} in
  let st := mkApp ai 7 false true no_status in
  (∀ l, (effect_ai 0 σ st).1 = Some l →
     mode st = ai ∧ aiTurn st = true ∧ game_over st = false
     ∧ σ !! l = None
     ∧ (effect_ai 0 σ st).2 !! board st = Some example_board
     ∧ ∃ k, k < 9 ∧ sq example_board k = None
            ∧ (effect_ai 0 σ st).2 !! l = Some (<[k := Some O]> example_board))
  ∧ (mode st = ai → aiTurn st = true → game_over st = false → ¬ full example_board →
     is_Some (effect_ai 0 σ st).1).
Proof.
  intros σ st. apply (effect_ai_arms_one_move 0 σ st example_board); reflexivity.
Defined.

(** ** Mode and timers across the renders of one event *)

Lemma effect_ai_off_in_pvp rnd (σ : gmap nat Squares) st :
  mode st = pvp → effect_ai rnd σ st = (None, σ).
Proof. intros Hm. unfold effect_ai. by rewrite Hm. Qed.

Lemma flush_keeps_mode rnd fuel : ∀ prev w w',
  flush fuel rnd prev w = Some w' → mode (app w') = mode (app w).
Proof.
  induction fuel as [|fuel IH]; intros prev w w'; rewrite flush_unfold;
    pose proof (commit_keeps_mode rnd prev w) as Hk;
    pose proof (commit_app rnd prev w) as Ha;
    destruct ((commit rnd prev w).1) as [|a acts].
  - intros [= <-]. by rewrite Ha.
  - done.
  - intros [= <-]. by rewrite Ha.
  - intros H. apply IH in H. by rewrite H.
Qed.

Lemma commit_timers_pvp rnd prev w :
  mode (app w) = pvp → timers (commit rnd prev w).2 = timers w.
Proof.
  intros Hm.
  destruct (commit_shape rnd prev w) as (acts1 & σ1 & acts2 & t & σ2 & d & Hc & _ & _ & Hai).
  rewrite Hc. cbn [snd timers].
  assert (t = None) as ->.
  { destruct Hai as [[-> _] | [-> _]]; [|done]. by rewrite effect_ai_off_in_pvp. }
  apply app_nil_r.
Qed.

Lemma flush_timers_pvp rnd fuel : ∀ prev w w',
  mode (app w) = pvp → flush fuel rnd prev w = Some w' → timers w' = timers w.
Proof.
  induction fuel as [|fuel IH]; intros prev w w' Hm; rewrite flush_unfold;
    pose proof (commit_timers_pvp rnd prev w Hm) as Ht;
    pose proof (commit_keeps_mode rnd prev w) as Hk;
    destruct ((commit rnd prev w).1) as [|a acts].
  - by intros [= <-].
  - done.
  - by intros [= <-].
  - intros H. apply IH in H; [by rewrite H|]. cbn [with_app app]. by rewrite Hk.
Qed.

Lemma dispatch_timers w e acts w1 :
  dispatch w e = Some (acts, w1) →
  timers w1 = timers w ∨ ∃ l, timers w = l :: timers w1.
Proof.
  destruct e as [i | m | | ]; cbn [dispatch].
  - destruct (decide (i < 9)); [|done].
    destruct (handleClick (heap w) (app w) i). intros [= <- <-]. by left.
  - intros [= <- <-]. by left.
  - destruct (game_over (app w)); [|done].
    destruct (handleRestart (heap w) (app w)). intros [= <- <-]. by left.
  - destruct (timers w) as [|l rest]; [done|]. intros [= <- <-]. right. by exists l.
Qed.

(** X4.  An event after which the mode is [pvp] arms no timer: the armed
    timers are those from before, less the one that fired. *)
Theorem pvp_arms_no_timer rnd w e w' :
  step rnd w e = Some w' → mode (app w') = pvp →
  timers w' = timers w ∨ ∃ l, timers w = l :: timers w'.
Proof.
  unfold step. destruct (dispatch w e) as [[acts w1]|] eqn:Hd; [|done].
  intros Hs Hm. pose proof (flush_keeps_mode _ _ _ _ _ Hs) as Hk.
  rewrite Hm in Hk. symmetry in Hk.
  rewrite (flush_timers_pvp _ _ _ _ _ Hk Hs). cbn [with_app timers].
  by apply (dispatch_timers w e acts).
Qed.

Lemma pvp_arms_no_timer_witness :
  ∃ w w', play first_choice [SelectMode ai; Click 0] = Some w
          ∧ step first_choice w (SelectMode pvp) = Some w'
          ∧ length (timers w) = 1
          ∧ (timers w' = timers w ∨ ∃ l, timers w = l :: timers w').
Proof.
  eexists _, _. split; [vm_compute; reflexivity|]. split; [vm_compute; reflexivity|].
  split; [reflexivity|].
  eapply (pvp_arms_no_timer first_choice _ (SelectMode pvp)); [vm_compute|]; reflexivity.
Defined.

(** ** Sessions in mode [pvp] *)

(** While the mode stays as it was, the renders of one event keep the board
    and the turn that its handler queued. *)
Lemma flush_same_mode_keeps rnd fuel : ∀ p w w',
  world_ok w → mode p = mode (app w) →
  flush fuel rnd (Some p) w = Some w' →
  board (app w') = board (app w)
  ∧ xIsNext (app w') = xIsNext (app w)
  ∧ heap w ⊆ heap w'.
Proof.
  induction fuel as [|fuel IH]; intros p w w' Hw Hm; pose proof Hw as (Hok & [b Hl] & Ht);
    rewrite flush_unfold;
    destruct (commit_parts rnd (Some p) w b Hok Hl Ht)
      as (acts1 & σ1 & acts2 & t & σ2 & d & Hc & Hmode & Hb & Hok' & S1 & S2 & Ht');
    rewrite Hc; cbn [fst snd];
    (destruct Hmode as [(Hmt & _) | (_ & -> & ->)];
       [by rewrite (dep_unchanged mode _ _ Hm) in Hmt|]);
    rewrite app_nil_l;
    (destruct Hb as [(_ & ->) | (_ & ->)]; [|by intros [= <-]]);
    pose proof (effect_status_nonempty (heap w) (app w)) as Hne;
    destruct (effect_status (heap w) (app w)) as [|a acts] eqn:E; try done.
  rewrite <- E. clear Hc Hne. clear a acts E.
  destruct (effect_status_keeps (heap w) (app w) (app w)) as (Hkm & Hkb & Hkx).
  intros H. apply IH in H as (H1 & H2 & H3).
  - cbn [with_app app heap] in *. rewrite H1, H2, Hkb, Hkx.
    split; [done|]. split; [done|]. etrans; [exact S2 | exact H3].
  - split; [done|]. cbn [with_app app heap timers]. split; [|done].
    rewrite Hkb. exists b. by eapply lookup_weaken.
  - cbn [with_app app]. by rewrite Hkm.
Qed.

Lemma handleClick_keeps_mode (σ : gmap nat Squares) st i :
  mode (apply_actions st (handleClick σ st i).1) = mode st.
Proof.
  unfold handleClick. destruct (game_over st || truthy (sq (read σ (board st)) i)); [done|].
  destruct (bool_decide (mode st = pvp) || bool_decide (mode st = ai) && xIsNext st); [|done].
  by rewrite (surjective_pairing (spread σ (board st))).
Qed.

(** What an event of a [pvp] session queues. *)
Lemma dispatch_pvp w e acts w1 :
  world_ok w → mode (app w) = pvp → timers w = [] →
  turn_consistent (shown w) (xIsNext (app w)) →
  e ≠ SelectMode ai →
  dispatch w e = Some (acts, w1) →
  mode (apply_actions (app w) acts) = pvp
  ∧ timers w1 = []
  ∧ turn_consistent (read (heap w1) (board (apply_actions (app w) acts)))
                    (xIsNext (apply_actions (app w) acts)).
Proof.
  intros (Hok & [b Hl] & _) Hm Ht Htc Hne. unfold shown in Htc.
  rewrite (read_lookup _ _ _ Hl) in Htc.
  destruct e as [i | m | | ]; cbn [dispatch].
  - destruct (decide (i < 9)) as [Hi|]; [|done].
    pose proof (pvp_click_alternates (heap w) (app w) i b Hl) as Hpvp.
    pose proof (handleClick_keeps_mode (heap w) (app w) i) as Hkm.
    destruct (handleClick (heap w) (app w) i) as [acts' σ']. intros [= <- <-].
    cbn [fst snd heap timers] in *. split; [congruence|]. split; [done|].
    apply Hpvp; [rewrite (Hok _ _ Hl); lia | done | done].
  - intros [= <- <-]. destruct m; [|done]. cbn [apply_actions foldl apply_action mode board xIsNext].
    split; [done|]. split; [done|]. by rewrite (read_lookup _ _ _ Hl).
  - destruct (game_over (app w)); [|done].
    destruct (handleRestart_state (heap w) (app w)) as (Hb & Hx & _ & Hmd).
    destruct (handleRestart (heap w) (app w)) as [acts' σ']. intros [= <- <-].
    cbn [fst snd heap timers] in *. split; [congruence|]. split; [done|].
    by rewrite (read_lookup _ _ _ Hb), Hx.
  - by rewrite Ht.
Qed.

Lemma pvp_step rnd w e w' :
  reachable rnd w → mode (app w) = pvp → timers w = [] →
  turn_consistent (shown w) (xIsNext (app w)) →
  e ≠ SelectMode ai →
  step rnd w e = Some w' →
  mode (app w') = pvp ∧ timers w' = [] ∧ turn_consistent (shown w') (xIsNext (app w')).
Proof.
  intros Hr Hm Ht Htc Hne Hs. destruct (reachable_invariant _ _ Hr) as [Hw Hf].
  unfold step in Hs. destruct (dispatch w e) as [[acts w1]|] eqn:Hd; [|done].
  destruct (dispatch_pvp w e acts w1 Hw Hm Ht Htc Hne Hd) as (Hm1 & Ht1 & Htc1).
  destruct (dispatch_invariant w e acts w1 Hw Hf Hd) as [Hw2 _].
  pose proof (flush_keeps_mode _ _ _ _ _ Hs) as Hk. cbn [with_app app] in Hk.
  assert (Hm2 : mode (app (with_app w1 (apply_actions (app w) acts))) = pvp) by exact Hm1.
  pose proof (flush_timers_pvp _ _ _ _ _ Hm2 Hs) as Htm. cbn [with_app timers] in Htm.
  destruct (flush_same_mode_keeps _ _ _ _ _ Hw2 (eq_trans Hm (eq_sym Hm1)) Hs)
    as (Hb & Hx & Hsub).
  cbn [with_app app heap] in Hb, Hx, Hsub.
  split; [congruence|]. split; [congruence|].
  unfold shown. rewrite Hb, Hx.
  destruct Hw2 as (_ & [b1 Hl1] & _). cbn [with_app app heap] in Hl1.
  rewrite (read_lookup _ _ _ (lookup_weaken _ _ _ _ Hl1 Hsub)).
  by rewrite (read_lookup _ _ _ Hl1) in Htc1.
Qed.

Lemma pvp_run rnd es : ∀ w w',
  reachable rnd w → mode (app w) = pvp → timers w = [] →
  turn_consistent (shown w) (xIsNext (app w)) →
  Forall (λ e, e ≠ SelectMode ai) es →
  run rnd w es = Some w' →
  mode (app w') = pvp ∧ timers w' = [] ∧ turn_consistent (shown w') (xIsNext (app w')).
Proof.
  induction es as [|e rest IH]; intros w w' Hr Hm Ht Htc Hes; cbn [run].
  - by intros [= <-].
  - apply Forall_cons in Hes as [He Hrest].
    destruct (step rnd w e) as [w1|] eqn:Hs; [|done].
    destruct (pvp_step rnd w e w1 Hr Hm Ht Htc He Hs) as (Hm1 & Ht1 & Htc1).
    apply IH; try done. by eapply reach_step.
Qed.

(** X5.  As long as mode [ai] is never selected, the numbers of X and O on
    the board agree with the turn (equal when X is to move, one more X when
    O is), so they differ by at most one; and no timer is ever armed. *)
Theorem pvp_session_alternates rnd es w :
  Forall (λ e, e ≠ SelectMode ai) es →
  play rnd es = Some w →
  mode (app w) = pvp
  ∧ timers w = []
  ∧ turn_consistent (shown w) (xIsNext (app w))
  ∧ balanced (shown w).
Proof.
  intros Hes. unfold play. destruct (mount rnd) as [w0|] eqn:Hm; [|done].
  intros Hrun. pose proof (reach_mount rnd w0 Hm) as Hr.
  vm_compute in Hm. injection Hm as <-.
  destruct (pvp_run rnd es _ w Hr eq_refl eq_refl eq_refl Hes Hrun) as (H1 & H2 & H3).
  split; [done|]. split; [done|]. split; [done|]. by eapply turn_consistent_balanced.
Qed.

Lemma pvp_session_alternates_witness :
  ∃ w, play first_choice [Click 0; Click 4; Click 4; Click 8] = Some w
       ∧ mode (app w) = pvp
       ∧ timers w = []
       ∧ turn_consistent (shown w) (xIsNext (app w))
       ∧ balanced (shown w).
Proof.
  eexists. split; [vm_compute; reflexivity|].
  apply (pvp_session_alternates first_choice [Click 0; Click 4; Click 4; Click 8]).
  - repeat (apply Forall_cons; split; [discriminate|]). apply Forall_nil_2.
  - vm_compute. reflexivity.
Defined.

(** ** More on the rules engine *)

Lemma no_winning_cell b m :
  try_cells b m (seq 0 9) = None ↔ ¬ ∃ i, winning_cell b m i.
Proof.
  rewrite try_cells_none. split.
  - intros H (i & [Hi Hc]%winning_cell_test). by apply (H i).
  - intros H i Hi Hc. apply H. exists i. by apply winning_cell_test.
Qed.

(** X6.  With no winning cell for either mark, [computeAIMove] takes the
    centre if it is empty; otherwise an empty corner if there is one;
    otherwise, with every corner taken, an empty side if there is one. *)
Theorem computeAIMove_positional rnd (b : Squares) self opp :
  (¬ ∃ i, winning_cell b self i) → (¬ ∃ i, winning_cell b opp i) →
  (sq b 4 = None → computeAIMove rnd b self opp = 4%Z)
  ∧ (sq b 4 ≠ None → (∃ c, c ∈ [0; 2; 6; 8] ∧ sq b c = None) →
     ∃ k, computeAIMove rnd b self opp = Z.of_nat k ∧ k ∈ [0; 2; 6; 8] ∧ sq b k = None)
  ∧ (sq b 4 ≠ None → (∀ c, c ∈ [0; 2; 6; 8] → sq b c ≠ None) →
     (∃ d, d ∈ [1; 3; 5; 7] ∧ sq b d = None) →
     ∃ k, computeAIMove rnd b self opp = Z.of_nat k ∧ k ∈ [1; 3; 5; 7] ∧ sq b k = None).
Proof.
  intros Hs%no_winning_cell Ho%no_winning_cell.
  assert (Hnone : ∀ xs, empty_among b xs = [] → ∀ c, c ∈ xs → sq b c ≠ None).
  { intros xs Hxs c Hc He. assert (Hin : c ∈ empty_among b xs) by by apply elem_of_empty_among.
    rewrite Hxs in Hin. by apply elem_of_nil in Hin. }
  destruct (computeAIMove_reason rnd b self opp)
    as [k Hk | k _ Hk | _ _ Hc | k _ _ Hc Hk | k _ _ Hc Hcor Hk | _ _ Hc Hcor Hsid];
    try congruence.
  - split; [done|]. split; intros Hc'; done.
  - apply elem_of_empty_among in Hk as [Hin He].
    split; [done|]. split; [by eauto|]. intros _ Hall. by destruct (Hall k Hin).
  - apply elem_of_empty_among in Hk as [Hin He].
    split; [done|]. split; [|by eauto]. intros _ (c & Hcin & Hce).
    by destruct (Hnone _ Hcor c Hcin).
  - split; [done|]. split.
    + intros _ (c & Hcin & Hce). by destruct (Hnone _ Hcor c Hcin).
    + intros _ _ (d & Hdin & Hde). by destruct (Hnone _ Hsid d Hdin).
Qed.

Lemma computeAIMove_positional_witness :
  let b : Squares := [None; None; None; None; Some X; None; None; None; None] in
  (sq b 4 = None → computeAIMove 1 b O X = 4%Z)
  ∧ (sq b 4 ≠ None → (∃ c, c ∈ [0; 2; 6; 8] ∧ sq b c = None) →
     ∃ k, computeAIMove 1 b O X = Z.of_nat k ∧ k ∈ [0; 2; 6; 8] ∧ sq b k = None)
  ∧ (sq b 4 ≠ None → (∀ c, c ∈ [0; 2; 6; 8] → sq b c ≠ None) →
     (∃ d, d ∈ [1; 3; 5; 7] ∧ sq b d = None) →
     ∃ k, computeAIMove 1 b O X = Z.of_nat k ∧ k ∈ [1; 3; 5; 7] ∧ sq b k = None).
Proof.
  intros b. apply (computeAIMove_positional 1 b O X); apply no_winning_cell; reflexivity.
Defined.

Lemma monochrome_after_fill (b : Squares) i v m t :
  sq b i = None → monochrome b m t → monochrome (js_set b i v) m t.
Proof.
  intros He. destruct t as [[x y] z]. unfold monochrome. rewrite !sq_js_set.
  intros (Hx & Hy & Hz).
  repeat split; (rewrite decide_False; [done | intros ->; congruence]).
Qed.

(** X7.  A finished game stays finished: if [calculateWinner] returns a
    result for a board, it still returns one after an empty cell of that
    board is filled; and a board whose result is a tie has no empty cell
    left to fill. *)
Theorem verdict_stays_terminal (b : Squares) i m :
  i < length b → sq b i = None → is_Some (calculateWinner b) →
  is_Some (calculateWinner (js_set b i (Some m)))
  ∧ calculateWinner b ≠ Some (mkResult TieGame []).
Proof.
  intros Hi He [r Hr]. unfold calculateWinner in Hr |- *.
  destruct (scan_lines b lines) as [r'|] eqn:Hscan.
  - split; [|by intros [= ->]; destruct (scan_lines_some _ _ _ Hscan)
                 as (? & ? & ? & ? & _ & _ & _ & ?)].
    destruct (scan_lines_some _ _ _ Hscan) as (pre & t & post & m' & Hl & _ & Hm & _).
    destruct (scan_lines (js_set b i (Some m)) lines) as [r2|] eqn:Hscan2; [eauto|].
    apply scan_lines_none, no_line_won in Hscan2. destruct Hscan2.
    exists m', t. split; [|by apply monochrome_after_fill].
    rewrite Hl. apply elem_of_app. right. by left.
  - destruct (forallb truthy b) eqn:Hall; [|done].
    rewrite forallb_forall in Hall.
    destruct (lookup_lt_is_Some_2 b i Hi) as [c Hc].
    assert (Ht : truthy c = true).
    { apply Hall, list_elem_of_In, list_elem_of_lookup. eauto. }
    rewrite <- (sq_lookup _ _ _ Hc), He in Ht. done.
Qed.

Lemma verdict_stays_terminal_witness :
  let b : Squares := [Some X; Some X; None; None; None; None; Some O; Some O; Some O] in
  calculateWinner b = Some (mkResult (Wins O) [6; 7; 8])
  ∧ calculateWinner (js_set b 2 (Some X)) = Some (mkResult (Wins X) [0; 1; 2])
  ∧ is_Some (calculateWinner (js_set b 2 (Some X)))
  ∧ calculateWinner b ≠ Some (mkResult TieGame []).
Proof.
  intros b. split; [reflexivity|]. split; [reflexivity|].
  apply (verdict_stays_terminal b 2 X); [simpl; lia | reflexivity | by eexists].
Defined.

(** ** Exchanging X and O *)

Lemma sq_swap (b : Squares) i : sq (swap_board b) i = swap_cell (sq b i).
Proof. unfold sq, swap_board. rewrite list_lookup_fmap. by destruct (b !! i). Qed.

Lemma truthy_swap (c : Cell) : truthy (swap_cell c) = truthy c.
Proof. by destruct c. Qed.

Lemma swap_cell_eq (c c' : Cell) : swap_cell c = swap_cell c' ↔ c = c'.
Proof. destruct c as [[]|], c' as [[]|]; naive_solver. Qed.

Lemma line_won_swap b t : line_won (swap_board b) t = line_won b t.
Proof.
  destruct t as [[x y] z]. unfold line_won. rewrite !sq_swap, truthy_swap.
  by rewrite !(bool_decide_ext _ _ (swap_cell_eq _ _)).
Qed.

Lemma scan_lines_swap b ls :
  scan_lines (swap_board b) ls = swap_result <$> scan_lines b ls.
Proof.
  induction ls as [|[[x y] z] rest IH]; cbn [scan_lines]; [done|].
  rewrite line_won_swap, sq_swap, IH.
  destruct (sq b x) as [m|]; cbn [swap_cell]; [|done].
  by destruct (line_won b (x, y, z)).
Qed.

Lemma forallb_truthy_swap b : forallb truthy (swap_board b) = forallb truthy b.
Proof.
  induction b as [|c b IH]; [done|]. cbn [swap_board fmap list_fmap forallb].
  rewrite truthy_swap. f_equal. exact IH.
Qed.

Lemma calculateWinner_swap b :
  calculateWinner (swap_board b) = swap_result <$> calculateWinner b.
Proof.
  unfold calculateWinner. rewrite scan_lines_swap, forallb_truthy_swap.
  destruct (scan_lines b lines); [done|]. by destruct (forallb truthy b).
Qed.

Lemma js_set_swap (b : Squares) i v :
  js_set (swap_board b) i (swap_cell v) = swap_board (js_set b i v).
Proof.
  unfold js_set, swap_board. rewrite length_fmap.
  destruct (decide (i < length b)).
  - by rewrite list_fmap_insert.
  - by rewrite !fmap_app, fmap_replicate.
Qed.

Lemma winner_is_swap m r :
  winner_is (swap_mark m) (swap_result <$> r) = winner_is m r.
Proof.
  destruct r as [[[m'|] l]|]; [|done..]. cbn.
  apply bool_decide_ext. destruct m, m'; naive_solver.
Qed.

Lemma try_cells_swap b m idxs :
  try_cells (swap_board b) (swap_mark m) idxs = try_cells b m idxs.
Proof.
  induction idxs as [|i rest IH]; cbn [try_cells]; [done|].
  rewrite sq_swap, truthy_swap, IH.
  change (Some (swap_mark m)) with (swap_cell (Some m)).
  by rewrite js_set_swap, calculateWinner_swap, winner_is_swap.
Qed.

Lemma empty_among_swap b xs : empty_among (swap_board b) xs = empty_among b xs.
Proof.
  unfold empty_among. induction xs as [|x xs IH]; [done|].
  rewrite !filter_cons, IH, sq_swap, truthy_swap. done.
Qed.

(** X8.  The rules engine treats the two marks alike: on the board with X
    and O exchanged, [calculateWinner] returns the same result with the
    winner exchanged, and [computeAIMove], asked for the exchanged marks,
    returns the same cell. *)
Theorem marks_are_interchangeable rnd (b : Squares) self opp :
  calculateWinner (swap_board b) = swap_result <$> calculateWinner b
  ∧ computeAIMove rnd (swap_board b) (swap_mark self) (swap_mark opp)
    = computeAIMove rnd b self opp.
Proof.
  split; [apply calculateWinner_swap|].
  unfold computeAIMove. by rewrite !try_cells_swap, !empty_among_swap, sq_swap, truthy_swap.
Qed.

(** ** Starting over: restart and change of mode *)

Lemma effect_ai_arms rnd (σ : gmap nat Squares) st b :
  σ !! board st = Some b →
  mode st = ai → aiTurn st = true → game_over st = false → ¬ full b →
  is_Some (effect_ai rnd σ st).1.
Proof.
  intros Hl Hm Ha Hg Hnf. unfold effect_ai. rewrite Hm, Ha, Hg.
  rewrite bool_decide_eq_true_2 by done. cbn [andb negb].
  destruct (computeAIMove_in_spec rnd σ (board st) b aiMark playerMark Hl) as [E _].
  destruct (computeAIMove_in rnd σ (board st) aiMark playerMark) as [idx σ1].
  cbn [fst] in E. subst idx.
  rewrite bool_decide_eq_true_2.
  - rewrite (surjective_pairing (spread σ1 (board st))). cbn [fst]. eauto.
  - intros E. by apply Hnf, (no_move_only_when_full rnd b aiMark playerMark).
Qed.

Lemma effect_ai_off rnd (σ : gmap nat Squares) st :
  bool_decide (mode st = ai) && aiTurn st = false → effect_ai rnd σ st = (None, σ).
Proof. intros H. unfold effect_ai. by rewrite H. Qed.

(** The commit of a render whose mode is that of the previous one. *)
Lemma commit_same_mode_eq rnd p w :
  mode p = mode (app w) →
  commit rnd (Some p) w =
    (let acts2 := if dep_changed board (Some p) (app w)
                  then effect_status (heap w) (app w) else [] in
     if dep_changed aiTurn (Some p) (app w) || dep_changed board (Some p) (app w)
        || false || dep_changed status_winner_of (Some p) (app w)
     then (acts2, mkWorld (effect_ai (rnd (draws w)) (heap w) (app w)).2 (app w)
                    (timers w ++ option_list (effect_ai (rnd (draws w)) (heap w) (app w)).1)
                    (S (draws w)))
     else (acts2, mkWorld (heap w) (app w) (timers w) (draws w))).
Proof.
  intros Hm. unfold commit. rewrite (dep_unchanged mode _ _ Hm). cbn [app].
  destruct (_ || _ || _ || _); [|done].
  by rewrite (surjective_pairing (effect_ai _ _ _)).
Qed.

(** Rendering on from a state whose board is a new empty array, with X to
    move and no stored verdict: the status effect confirms that state and
    clears [aiTurn]; if the mode is [ai] and [aiTurn] was set in that
    render, the automated player's effect has armed O on the centre. *)
Lemma flush_fresh_board rnd fuel p w w' :
  heap w !! board (app w) = Some emptyBoard →
  xIsNext (app w) = true → status (app w) = no_status →
  mode p = mode (app w) → board p ≠ board (app w) →
  flush (S fuel) rnd (Some p) w = Some w' →
  shown w' = emptyBoard
  ∧ xIsNext (app w') = true
  ∧ status (app w') = no_status
  ∧ aiTurn (app w') = false
  ∧ mode (app w') = mode (app w)
  ∧ (if bool_decide (mode (app w) = ai) && aiTurn (app w)
     then ∃ l, timers w' = timers w ++ [l]
               ∧ read (heap w') l = <[4 := Some O]> emptyBoard
     else timers w' = timers w).
Proof.
  intros Hl Hx Hs Hm Hb. rewrite flush_unfold, (commit_same_mode_eq _ _ _ Hm).
  assert (Hbc : dep_changed board (Some p) (app w) = true) by by apply bool_decide_eq_true_2.
  rewrite Hbc, orb_true_r. cbn [orb fst snd].
  assert (Hacts : effect_status (heap w) (app w) = [setStatus no_status; setAITurn false]).
  { unfold effect_status. rewrite (read_lookup _ _ _ Hl), Hx. simpl.
    by rewrite !andb_false_r. }
  rewrite Hacts.
  set (r := rnd (draws w)).
  set (st2 := apply_actions (app w) [setStatus no_status; setAITurn false]).
  set (w2 := with_app _ st2).
  pose proof (effect_ai_extends r (heap w) (app w) emptyBoard Hl) as Hsub.
  assert (Hl2 : heap w2 !! board (app w2) = Some emptyBoard).
  { unfold w2, st2. cbn [with_app heap app]. by eapply lookup_weaken. }
  rewrite (flush_quiet fuel rnd (app w) w2) by done.
  rewrite (commit_same_mode_eq rnd (app w) w2) by done. cbn zeta.
  assert (Hoff : effect_ai (rnd (draws w2)) (heap w2) (app w2) = (None, heap w2)).
  { apply effect_ai_off. unfold w2, st2. cbn [with_app app]. apply andb_false_r. }
  rewrite Hoff. cbn [fst snd option_list]. rewrite app_nil_r.
  assert (Hshape : ∃ d', ((if dep_changed aiTurn (Some (app w)) (app w2)
            || dep_changed board (Some (app w)) (app w2) || false
            || dep_changed status_winner_of (Some (app w)) (app w2)
          then (if dep_changed board (Some (app w)) (app w2)
                then effect_status (heap w2) (app w2) else [],
                mkWorld (heap w2) (app w2) (timers w2) (S (draws w2)))
          else (if dep_changed board (Some (app w)) (app w2)
                then effect_status (heap w2) (app w2) else [],
                mkWorld (heap w2) (app w2) (timers w2) (draws w2))).2
          = mkWorld (heap w2) (app w2) (timers w2) d')).
  { destruct (_ || _ || _ || _); eauto. }
  destruct Hshape as [d' ->]. intros [= <-].
  split; [exact (read_lookup _ _ _ Hl2)|].
  split; [exact Hx|]. split; [done|]. split; [done|]. split; [done|].
  unfold w2. cbn [with_app timers heap].
  destruct (bool_decide (mode (app w) = ai) && aiTurn (app w)) eqn:Hg.
  - apply andb_true_iff in Hg as [Hma%bool_decide_eq_true Hat].
    destruct (effect_ai_cases r (heap w) (app w) emptyBoard Hl)
      as [E | (l & k & E & _ & _ & _ & Hk & _ & _ & _ & Hset)].
    + assert (Harm : is_Some (effect_ai r (heap w) (app w)).1).
      { apply (effect_ai_arms r _ _ emptyBoard); try done.
        - unfold game_over. by rewrite Hs.
        - intros Hfull. by apply (Hfull 0); [lia|]. }
      rewrite E in Harm. by destruct Harm.
    + rewrite E. exists l. split; [done|].
      assert (k = 4) as -> by (change (computeAIMove r emptyBoard aiMark playerMark) with 4%Z in Hk; lia).
      by rewrite (read_lookup _ _ _ Hset).
  - by rewrite (effect_ai_off r (heap w) (app w) Hg), app_nil_r.
Qed.

Lemma handleRestart_calls (σ : gmap nat Squares) st :
  handleRestart σ st =
    ([setBoard (alloc σ emptyBoard).1; setXIsNext true; setStatus no_status;
      setAITurn (bool_decide (mode st = ai) && negb (xIsNext st))],
     <[(alloc σ emptyBoard).1 := emptyBoard]> σ).
Proof.
  unfold handleRestart, setAiFirstMove.
  by destruct (bool_decide (mode st = ai) && negb (xIsNext st)).
Qed.

(** X9.  Once the restart has settled, the board on screen is empty, X is
    to move, no verdict is stored and the mode is as before.  If the mode is
    [ai] and it was O's turn when restart was clicked, the automated player
    has armed O on the centre cell; otherwise no timer was added. *)
Theorem restart_event rnd w :
  reachable rnd w → game_over (app w) = true →
  ∃ w', step rnd w ClickRestart = Some w'
        ∧ shown w' = emptyBoard
        ∧ xIsNext (app w') = true
        ∧ status (app w') = no_status
        ∧ aiTurn (app w') = false
        ∧ mode (app w') = mode (app w)
        ∧ (if bool_decide (mode (app w) = ai) && negb (xIsNext (app w))
           then ∃ l, timers w' = timers w ++ [l]
                     ∧ read (heap w') l = <[4 := Some O]> emptyBoard
           else timers w' = timers w).
Proof.
  intros [(Hok & Hb & Ht) _]%reachable_invariant Hg.
  unfold step. cbn [dispatch]. rewrite Hg, handleRestart_calls.
  set (l := (alloc (heap w) emptyBoard).1).
  set (w1 := with_app _ _).
  destruct (flush_settles 2 rnd (Some (app w)) w1) as [w' Hw'].
  exists w'. split; [exact Hw'|].
  apply flush_fresh_board in Hw'.
  - unfold w1 in Hw'. cbn in Hw'.
    destruct Hw' as (H1 & H2 & H3 & H4 & H5 & H6).
    repeat (split; [done|]).
    by destruct (bool_decide (mode (app w) = ai)), (xIsNext (app w)).
  - unfold w1. cbn. apply lookup_insert_eq.
  - done.
  - done.
  - done.
  - unfold w1. cbn. intros E. by apply (fresh_differs (heap w) (board (app w)) emptyBoard).
Qed.

Lemma restart_event_witness :
  ∃ w w', play first_choice [SelectMode ai; Click 0; TimerFires; TimerFires; TimerFires; TimerFires] = Some w
          ∧ step first_choice w ClickRestart = Some w'
          ∧ shown w' = emptyBoard
          ∧ xIsNext (app w') = true
          ∧ status (app w') = no_status
          ∧ aiTurn (app w') = false
          ∧ mode (app w') = mode (app w)
          ∧ (if bool_decide (mode (app w) = ai) && negb (xIsNext (app w))
             then ∃ l, timers w' = timers w ++ [l]
                       ∧ read (heap w') l = <[4 := Some O]> emptyBoard
             else timers w' = timers w).
Proof.
  destruct (play first_choice [SelectMode ai; Click 0; TimerFires; TimerFires; TimerFires; TimerFires])
    as [w|] eqn:Hp; [|by vm_compute in Hp].
  pose proof (play_reachable _ _ _ Hp) as Hr.
  exists w. destruct (restart_event first_choice w Hr) as (w' & H).
  - vm_compute in Hp. by injection Hp as <-.
  - exists w'. split; [done|]. exact H.
Defined.

(** X10.  Selecting the other mode resets the game: once the change has
    settled, the board on screen is empty, X is to move, no verdict is
    stored, [aiTurn] is clear and the mode is the selected one. *)
Theorem mode_change_resets rnd w m :
  reachable rnd w → m ≠ mode (app w) →
  ∃ w', step rnd w (SelectMode m) = Some w'
        ∧ shown w' = emptyBoard
        ∧ xIsNext (app w') = true
        ∧ status (app w') = no_status
        ∧ aiTurn (app w') = false
        ∧ mode (app w') = m.
Proof.
  intros [(Hok & [b Hl] & Ht) _]%reachable_invariant Hne.
  unfold step, render_budget. cbn [dispatch].
  set (st1 := apply_actions (app w) [setMode m]).
  set (w1 := with_app w st1).
  destruct (flush_settles 2 rnd (Some (app w)) w1) as [w' Hw'].
  exists w'. split; [exact Hw'|]. revert Hw'.
  rewrite flush_unfold.
  destruct (commit_parts rnd (Some (app w)) w1 b Hok Hl Ht)
    as (acts1 & σ1 & acts2 & t & σ2 & d & Hc & Hmode & Hb & Hok' & S1 & S2 & Ht').
  rewrite Hc. cbn [fst snd].
  destruct Hmode as [(_ & -> & ->) | (Hmf & _)].
  2: { unfold dep_changed, w1, st1 in Hmf. cbn in Hmf.
       apply bool_decide_eq_false in Hmf. by destruct Hmf. }
  destruct Hb as [(Hbt & _) | (_ & ->)].
  { unfold dep_changed, w1, st1 in Hbt. cbn in Hbt.
    apply bool_decide_eq_true in Hbt. by destruct Hbt. }
  rewrite app_nil_r.
  pose proof (effect_mode_nonempty (heap w1) (app w1)) as Hnonempty.
  destruct (effect_mode_state (heap w1) (app w1) (app w1)) as (Hbd & Hx & Hs & Hm).
  destruct ((effect_mode (heap w1) (app w1)).1) as [|a acts] eqn:E; [done|].
  rewrite <- E in *. clear a acts E Hnonempty.
  intros Hw'. apply flush_fresh_board in Hw'.
  - cbn [with_app app] in Hw'. destruct Hw' as (H1 & H2 & H3 & H4 & H5 & _).
    repeat (split; [done|]). by rewrite H5, Hm.
  - cbn [with_app app heap]. rewrite Hbd. eapply lookup_weaken; [|exact S2].
    rewrite effect_mode_store, alloc_store. apply lookup_insert_eq.
  - done.
  - done.
  - cbn [with_app app]. by rewrite Hm.
  - cbn [with_app app]. rewrite Hbd. intros E. symmetry in E. revert E.
    by apply (fresh_differs (heap w1) (board (app w1)) emptyBoard); exists b.
Qed.

Lemma mode_change_resets_witness :
  ∃ w w', play first_choice [Click 0; Click 4] = Some w
          ∧ step first_choice w (SelectMode ai) = Some w'
          ∧ shown w' = emptyBoard
          ∧ xIsNext (app w') = true
          ∧ status (app w') = no_status
          ∧ aiTurn (app w') = false
          ∧ mode (app w') = ai.
Proof.
  destruct (play first_choice [Click 0; Click 4]) as [w|] eqn:Hp; [|by vm_compute in Hp].
  pose proof (play_reachable _ _ _ Hp) as Hr.
  exists w. destruct (mode_change_resets first_choice w ai Hr) as (w' & H).
  - vm_compute in Hp. by injection Hp as <-.
  - exists w'. split; [done|]. exact H.
Defined.

(** ** Events that are ignored *)

Lemma commit_idle rnd w : commit rnd (Some (app w)) w = ([], w).
Proof.
  unfold commit.
  rewrite (dep_unchanged mode _ _ eq_refl), (dep_unchanged board _ _ eq_refl),
    (dep_unchanged aiTurn _ _ eq_refl), (dep_unchanged status_winner_of _ _ eq_refl).
  by destruct w.
Qed.

Lemma flush_idle fuel rnd w : flush fuel rnd (Some (app w)) w = Some w.
Proof. rewrite flush_unfold. by rewrite commit_idle. Qed.

(** X11.  An ignored click (game over, cell taken, or mode [ai] while it is
    not X's turn) and the selection of the mode already in use leave the
    whole world as it was: no state changes, no effect runs, no timer is
    armed. *)
Theorem ignored_events_change_nothing rnd w i :
  i < 9 →
  game_over (app w) = true ∨ sq (shown w) i ≠ None
  ∨ (mode (app w) = ai ∧ xIsNext (app w) = false) →
  step rnd w (Click i) = Some w
  ∧ step rnd w (SelectMode (mode (app w))) = Some w.
Proof.
  intros Hi Hcond. split; unfold step; cbn [dispatch].
  - rewrite decide_True by done.
    assert (E : handleClick (heap w) (app w) i = ([], heap w)).
    { unfold handleClick. fold (shown w).
      destruct Hcond as [-> | [Hc | [Hm Hx]]]; [done | |].
      - apply truthy_true in Hc. rewrite Hc. by rewrite orb_true_r.
      - rewrite Hm, Hx. by destruct (game_over (app w) || truthy (sq (shown w) i)). }
    rewrite E. cbn [apply_actions foldl].
    replace (with_app _ (app w)) with w by by destruct w.
    apply flush_idle.
  - replace (with_app w _) with w by (by destruct w as [σ [] ts d]).
    apply flush_idle.
Qed.

Lemma ignored_events_change_nothing_witness :
  ∃ w, play first_choice [SelectMode ai; Click 0] = Some w
       ∧ sq (shown w) 1 = None
       ∧ step first_choice w (Click 1) = Some w
       ∧ step first_choice w (SelectMode (mode (app w))) = Some w.
Proof.
  eexists. split; [vm_compute; reflexivity|]. split; [reflexivity|].
  apply ignored_events_change_nothing; [lia|]. right. right. by split.
Defined.

(** ** No render loop *)

Lemma flush_more_fuel rnd fuel : ∀ prev w w',
  flush fuel rnd prev w = Some w' → flush (S fuel) rnd prev w = Some w'.
Proof.
  induction fuel as [|fuel IH]; intros prev w w'; rewrite !(flush_unfold _ rnd prev w);
    destruct ((commit rnd prev w).1); try done.
  apply IH.
Qed.

(** X12.  The effects never keep the component rendering: after any event
    (and on mount) at most three commits happen, so a budget of three
    renders gives the same world as any larger one. *)
Theorem renders_settle rnd prev w n :
  ∃ w', flush 2 rnd prev w = Some w' ∧ flush (2 + n) rnd prev w = Some w'.
Proof.
  destruct (flush_settles 0 rnd prev w) as [w' Hw']. exists w'. split; [done|].
  induction n as [|n IH]; [done|]. by apply flush_more_fuel in IH.
Qed.

(** ** What the user is shown *)

Lemma calculateWinner_tie (b : Squares) :
  well_formed b →
  winner <$> calculateWinner b = Some TieGame
  ↔ full b ∧ ¬ ∃ m t, t ∈ lines ∧ monochrome b m t.
Proof.
  intros Hwf. unfold calculateWinner.
  destruct (scan_lines b lines) as [r|] eqn:Hscan.
  - destruct (scan_lines_some _ _ _ Hscan) as (pre & t & post & m & Hl & _ & Hm & ->).
    split; [done|]. intros [_ Hno]. destruct Hno. exists m, t. split; [|done].
    rewrite Hl. apply elem_of_app. right. by left.
  - apply scan_lines_none, no_line_won in Hscan.
    rewrite <- (forallb_truthy_full b Hwf).
    destruct (forallb truthy b); cbn;
      [split; [by intros _ | done] | split; [done | by intros [? _]]].
Qed.

Lemma status_winner_verdict b :
  status_winner (verdict_status b) = winner <$> calculateWinner b.
Proof. unfold verdict_status. by destruct (calculateWinner b). Qed.

Lemma tie_message st :
  statusMessage st = "It's a tie!"%string ↔ status_winner (status st) = Some TieGame.
Proof.
  unfold statusMessage, playerMark.
  destruct (status_winner (status st)) as [[[]|]|], (mode st), (xIsNext st); by split.
Qed.

(** X13.  In every state the component can reach: the message is the tie
    text exactly when the board on screen is full with no won triple; the
    info bar with the restart button is shown exactly when
    [calculateWinner] returns a result for that board; and when it reports
    a mark as winner, the message names that mark ([pvp]) or says who won
    ([ai], where the human is X). *)
Theorem message_reports_verdict rnd w :
  reachable rnd w →
  (statusMessage (app w) = "It's a tie!"%string
     ↔ full (shown w) ∧ ¬ ∃ m t, t ∈ lines ∧ monochrome (shown w) m t)
  ∧ (is_Some (view_info_bar (render (heap w) (app w)))
     ↔ is_Some (calculateWinner (shown w)))
  ∧ (∀ m l, calculateWinner (shown w) = Some (mkResult (Wins m) l) →
     statusMessage (app w) =
       match mode (app w), m with
       | pvp, X => "Player X wins! ðŸŽ‰"
       | pvp, O => "Player O wins! ðŸŽ‰"
       | ai, X => "You win! ðŸŽ‰"
       | ai, O => "AI wins! ðŸ¤–"
       end%string).
Proof.
  intros Hr. destruct (reachable_invariant _ _ Hr) as [(Hok & [b Hl] & _) Hf].
  assert (Hwf : well_formed (shown w)).
  { unfold shown, well_formed. rewrite (read_lookup _ _ _ Hl). by eapply Hok. }
  unfold status_fresh in Hf. split; [|split].
  - rewrite tie_message, Hf, status_winner_verdict. by apply calculateWinner_tie.
  - unfold render, game_over. cbn [view_info_bar]. rewrite Hf, status_winner_verdict.
    destruct (calculateWinner (shown w)); cbn; split; intros [? ?]; eauto; done.
  - intros m l Hc. unfold statusMessage, playerMark. rewrite Hf.
    unfold verdict_status. rewrite Hc. cbn.
    by destruct m, (mode (app w)).
Qed.

Lemma message_reports_verdict_witness :
  ∃ w, play first_choice [Click 0; Click 3; Click 1; Click 4; Click 2] = Some w
       ∧ statusMessage (app w) = "Player X wins! ðŸŽ‰"%string
       ∧ (statusMessage (app w) = "It's a tie!"%string
            ↔ full (shown w) ∧ ¬ ∃ m t, t ∈ lines ∧ monochrome (shown w) m t)
       ∧ (is_Some (view_info_bar (render (heap w) (app w)))
          ↔ is_Some (calculateWinner (shown w)))
       ∧ (∀ m l, calculateWinner (shown w) = Some (mkResult (Wins m) l) →
          statusMessage (app w) =
            match mode (app w), m with
            | pvp, X => "Player X wins! ðŸŽ‰"
            | pvp, O => "Player O wins! ðŸŽ‰"
            | ai, X => "You win! ðŸŽ‰"
            | ai, O => "AI wins! ðŸ¤–"
            end%string).
Proof.
  eexists. split; [vm_compute; reflexivity|]. split; [reflexivity|].
  apply (message_reports_verdict first_choice).
  apply (play_reachable first_choice [Click 0; Click 3; Click 1; Click 4; Click 2]).
  vm_compute. reflexivity.
Defined.

(** X14.  Against the automated player, while no winner is stored, the turn
    message tells whether a click counts: it reads "Your move!" exactly when
    a click on an empty cell is accepted, and "AI is thinking..." exactly
    when such a click is ignored. *)
Theorem turn_message_matches_clicks (σ : gmap nat Squares) st i :
  mode st = ai → game_over st = false → sq (read σ (board st)) i = None →
  (statusMessage st = "Your move!"%string ↔ (handleClick σ st i).1 ≠ [])
  ∧ (statusMessage st = "AI is thinking..."%string ↔ (handleClick σ st i).1 = []).
Proof.
  intros Hm Hg He. unfold handleClick, statusMessage, playerMark.
  rewrite Hg, He, Hm. unfold game_over in Hg.
  destruct (status_winner (status st)); [done|].
  by destruct (xIsNext st); cbn; split; split.
Qed.

Lemma turn_message_matches_clicks_witness :
  let σ : gmap nat Squares := {[7 := example_board]} in
  let st := mkApp ai 7 false true no_status in
  (statusMessage st = "Your move!"%string ↔ (handleClick σ st 2).1 ≠ [])
  ∧ (statusMessage st = "AI is thinking..."%string ↔ (handleClick σ st 2).1 = []).
Proof.
  intros σ st. apply (turn_message_matches_clicks σ st 2); reflexivity.
Defined.

(** ** Highlighted squares *)

Lemma Board_squares b wl :
  concat (Board b wl) = renderSquare b wl <$> seq 0 9.
Proof. reflexivity. Qed.

Lemma highlighted_count b t :
  t ∈ lines →
  length (filter (λ v, sq_highlight v = true) (concat (Board b (line_indices t)))) = 3.
Proof.
  intros Hin. rewrite Board_squares.
  repeat (apply elem_of_cons in Hin as [-> | Hin]; [reflexivity|]).
  by apply elem_of_nil in Hin.
Qed.

(** X15.  In every state the component can reach, the squares drawn are the
    nine cells of the board in order; if [calculateWinner] reports a mark as
    winner for the board on screen, exactly three squares are highlighted
    and each of them shows that mark; otherwise no square is highlighted. *)
Theorem highlight_marks_winning_line rnd w :
  reachable rnd w →
  let squares := concat (view_board (render (heap w) (app w))) in
  (sq_value <$> squares = shown w)
  ∧ (∀ m l, calculateWinner (shown w) = Some (mkResult (Wins m) l) →
       length (filter (λ v, sq_highlight v = true) squares) = 3
       ∧ Forall (λ v, sq_highlight v = true → sq_value v = Some m) squares)
  ∧ ((∀ m l, calculateWinner (shown w) ≠ Some (mkResult (Wins m) l)) →
       Forall (λ v, sq_highlight v = false) squares).
Proof.
  intros Hr. destruct (reachable_invariant _ _ Hr) as [(Hok & [b Hl] & _) Hf].
  unfold status_fresh in Hf. unfold render. cbn [view_board]. fold (shown w).
  rewrite Hf. cbv zeta. split; [|split].
  - rewrite Board_squares, <- list_fmap_compose.
    assert (Hlen : length (shown w) = 9).
    { unfold shown. rewrite (read_lookup _ _ _ Hl). by eapply Hok. }
    destruct (shown w) as [|c0 [|c1 [|c2 [|c3 [|c4 [|c5 [|c6 [|c7 [|c8 [|]]]]]]]]]]; done.
  - intros m l Hc. unfold verdict_status. rewrite Hc. cbn [status_of status_line line winner].
    apply calculateWinner_mark in Hc.
    destruct (scan_lines_some _ _ _ Hc) as (pre & t & post & m' & Hlines & _ & Hm & [= -> ->]).
    assert (Hin : t ∈ lines) by (rewrite Hlines; apply elem_of_app; right; by left).
    split; [by apply highlighted_count|].
    rewrite Board_squares. apply Forall_fmap, Forall_forall. intros i _.
    unfold renderSquare, Square. cbn [sq_highlight sq_value].
    intros Hi%bool_decide_eq_true. destruct t as [[x y] z]. cbn [line_indices] in Hi.
    destruct Hm as (Hx & Hy & Hz).
    repeat (apply elem_of_cons in Hi as [-> | Hi]; [done|]). by apply elem_of_nil in Hi.
  - intros Hno. unfold verdict_status.
    assert (Hline : status_line (match calculateWinner (shown w) with
                                 | Some r => status_of r | None => no_status end) = []).
    { unfold calculateWinner in *. destruct (scan_lines (shown w) lines) as [r|] eqn:Hscan.
      - destruct (scan_lines_some _ _ _ Hscan) as (_ & t & _ & m & _ & _ & _ & ->).
        by destruct (Hno m (line_indices t)).
      - by destruct (forallb truthy (shown w)). }
    rewrite Hline, Board_squares. apply Forall_fmap, Forall_forall. intros i _.
    unfold renderSquare, Square. cbn [sq_highlight]. apply bool_decide_eq_false_2.
    apply not_elem_of_nil.
Qed.

Lemma highlight_marks_winning_line_witness :
  ∃ w, play first_choice [Click 0; Click 3; Click 1; Click 4; Click 2] = Some w
       ∧ calculateWinner (shown w) = Some (mkResult (Wins X) [0; 1; 2])
       ∧ let squares := concat (view_board (render (heap w) (app w))) in
         (sq_value <$> squares = shown w)
         ∧ (∀ m l, calculateWinner (shown w) = Some (mkResult (Wins m) l) →
              length (filter (λ v, sq_highlight v = true) squares) = 3
              ∧ Forall (λ v, sq_highlight v = true → sq_value v = Some m) squares)
         ∧ ((∀ m l, calculateWinner (shown w) ≠ Some (mkResult (Wins m) l)) →
              Forall (λ v, sq_highlight v = false) squares).
Proof.
  eexists. split; [vm_compute; reflexivity|]. split; [reflexivity|].
  apply (highlight_marks_winning_line first_choice).
  apply (play_reachable first_choice [Click 0; Click 3; Click 1; Click 4; Click 2]).
  vm_compute. reflexivity.
Defined.

(** ** Moves, once settled *)

Lemma handleClick_accepts (σ : gmap nat Squares) st i b :
  σ !! board st = Some b →
  game_over st = false → sq b i = None → (mode st = pvp ∨ xIsNext st = true) →
  handleClick σ st i =
    ([setBoard (spread σ (board st)).1; setXIsNext (negb (xIsNext st)); setAITurn false],
     <[(spread σ (board st)).1 := js_set b i (Some (if xIsNext st then X else O))]> σ).
Proof.
  intros Hl Hg He Hturn. unfold handleClick. rewrite (read_lookup _ _ _ Hl).
  apply truthy_false in He. rewrite Hg, He. cbn [orb].
  assert (Hok : bool_decide (mode st = pvp) || bool_decide (mode st = ai) && xIsNext st = true).
  { destruct Hturn as [-> | ->]; [done|]. by destruct (mode st). }
  rewrite Hok, (surjective_pairing (spread σ (board st))). cbn [fst snd].
  by rewrite (copy_then_write _ _ _ _ _ Hl).
Qed.

(** X16.  An accepted click, once settled: the board on screen is the old
    one with the mover's mark in the clicked cell, the turn has passed to
    the other mark, the mode is unchanged, and the stored status is the
    verdict of the new board. *)
Theorem accepted_click_settles rnd w i :
  reachable rnd w → i < 9 →
  game_over (app w) = false → sq (shown w) i = None →
  (mode (app w) = pvp ∨ xIsNext (app w) = true) →
  ∃ w', step rnd w (Click i) = Some w'
        ∧ shown w' = <[i := Some (if xIsNext (app w) then X else O)]> (shown w)
        ∧ xIsNext (app w') = negb (xIsNext (app w))
        ∧ mode (app w') = mode (app w)
        ∧ status (app w') = verdict_status (shown w').
Proof.
  intros Hr Hi Hg He Hturn.
  destruct (reachable_invariant _ _ Hr) as [Hw Hf]. pose proof Hw as (Hok & [b Hl] & _).
  unfold shown in He |- *. rewrite (read_lookup _ _ _ Hl) in He |- *.
  destruct (step_total rnd w (Click i)) as [w' Hs].
  { cbn [dispatch]. rewrite decide_True by done.
    destruct (handleClick (heap w) (app w) i); eauto. }
  exists w'. split; [done|].
  destruct (reachable_invariant _ _ (reach_step _ _ _ _ Hr Hs)) as [_ Hf'].
  unfold step in Hs. destruct (dispatch w (Click i)) as [[acts w1]|] eqn:Hd; [|done].
  destruct (dispatch_invariant w (Click i) acts w1 Hw Hf Hd) as [Hw2 _].
  cbn [dispatch] in Hd. rewrite decide_True in Hd by done.
  rewrite (handleClick_accepts _ _ _ _ Hl Hg He Hturn) in Hd. injection Hd as <- <-.
  pose proof (flush_keeps_mode _ _ _ _ _ Hs) as Hk.
  apply flush_same_mode_keeps in Hs as (Hb & Hx & Hsub); [|done|done].
  cbn in Hb, Hx, Hsub, Hk.
  split; [|split; [done|split; [done | done]]].
  rewrite Hb. apply read_lookup. eapply lookup_weaken; [|exact Hsub].
  rewrite lookup_insert_eq. f_equal. apply js_set_in_range. rewrite (Hok _ _ Hl). done.
Qed.

Lemma accepted_click_settles_witness :
  ∃ w w', play first_choice [Click 0] = Some w
          ∧ step first_choice w (Click 4) = Some w'
          ∧ shown w' = <[4 := Some (if xIsNext (app w) then X else O)]> (shown w)
          ∧ xIsNext (app w') = negb (xIsNext (app w))
          ∧ mode (app w') = mode (app w)
          ∧ status (app w') = verdict_status (shown w').
Proof.
  destruct (play first_choice [Click 0]) as [w|] eqn:Hp; [|by vm_compute in Hp].
  pose proof (play_reachable _ _ _ Hp) as Hr.
  vm_compute in Hp. injection Hp as <-.
  eexists. destruct (accepted_click_settles first_choice _ 4 Hr) as (w' & H);
    [lia | reflexivity | reflexivity | by left |].
  exists w'. split; [reflexivity|]. exact H.
Defined.

(** X17.  When a timer fires, the board on screen becomes the array that
    was armed with it, whatever the board was by then, and the turn flips;
    the mode stays and the stored status is the verdict of that array. *)
Theorem fired_timer_replaces_board rnd w l rest :
  reachable rnd w → timers w = l :: rest →
  ∃ w', step rnd w TimerFires = Some w'
        ∧ shown w' = read (heap w) l
        ∧ xIsNext (app w') = negb (xIsNext (app w))
        ∧ mode (app w') = mode (app w)
        ∧ status (app w') = verdict_status (shown w').
Proof.
  intros Hr Ht.
  destruct (reachable_invariant _ _ Hr) as [Hw Hf]. pose proof Hw as (Hok & _ & Htm).
  rewrite Ht in Htm. apply Forall_cons in Htm as [[bl Hl] _].
  destruct (step_total rnd w TimerFires) as [w' Hs].
  { cbn [dispatch]. rewrite Ht. eauto. }
  exists w'. split; [done|].
  destruct (reachable_invariant _ _ (reach_step _ _ _ _ Hr Hs)) as [_ Hf'].
  unfold step in Hs. destruct (dispatch w TimerFires) as [[acts w1]|] eqn:Hd; [|done].
  destruct (dispatch_invariant w TimerFires acts w1 Hw Hf Hd) as [Hw2 _].
  cbn [dispatch] in Hd. rewrite Ht in Hd. injection Hd as <- <-.
  pose proof (flush_keeps_mode _ _ _ _ _ Hs) as Hk.
  apply flush_same_mode_keeps in Hs as (Hb & Hx & Hsub); [|done|done].
  cbn in Hb, Hx, Hsub, Hk.
  split; [|split; [done|split; [done | done]]].
  unfold shown. rewrite Hb, (read_lookup _ _ _ Hl).
  apply read_lookup. by eapply lookup_weaken.
Qed.

Lemma fired_timer_replaces_board_witness :
  ∃ w l rest w',
    play first_choice [SelectMode ai; Click 0; TimerFires; Click 1] = Some w
    ∧ timers w = l :: rest
    ∧ sq (shown w) 1 = Some X
    ∧ sq (read (heap w) l) 1 = None
    ∧ step first_choice w TimerFires = Some w'
    ∧ shown w' = read (heap w) l
    ∧ xIsNext (app w') = negb (xIsNext (app w))
    ∧ mode (app w') = mode (app w)
    ∧ status (app w') = verdict_status (shown w').
Proof.
  destruct (play first_choice [SelectMode ai; Click 0; TimerFires; Click 1])
    as [w|] eqn:Hp; [|by vm_compute in Hp].
  pose proof (play_reachable _ _ _ Hp) as Hr.
  vm_compute in Hp. injection Hp as <-.
  eexists _, _, _.
  destruct (fired_timer_replaces_board first_choice _ _ _ Hr eq_refl) as (w' & H).
  exists w'. split; [reflexivity|]. split; [reflexivity|]. split; [reflexivity|].
  split; [reflexivity|]. exact H.
Defined.

(** ** The reply of the automated player *)

(** The second render after a handler: mode and board are those of the
    first, so only the automated player's effect can run. *)
Lemma flush_second_render rnd fuel p w :
  mode p = mode (app w) → board p = board (app w) →
  flush fuel rnd (Some p) w =
    Some (if dep_changed aiTurn (Some p) (app w)
             || dep_changed status_winner_of (Some p) (app w)
          then mkWorld (effect_ai (rnd (draws w)) (heap w) (app w)).2 (app w)
                 (timers w ++ option_list (effect_ai (rnd (draws w)) (heap w) (app w)).1)
                 (S (draws w))
          else w).
Proof.
  intros Hm Hb. rewrite (flush_quiet _ _ _ _ Hm Hb), (commit_same_mode_eq _ _ _ Hm).
  rewrite (dep_unchanged board _ _ Hb). cbn zeta. rewrite !orb_false_r.
  destruct (_ || _); [done|]. by destruct w.
Qed.

Lemma second_render_off rnd fuel p (σ : gmap nat Squares) st ts d :
  mode p = mode st → board p = board st → aiTurn st = false →
  ∃ d', flush fuel rnd (Some p) (mkWorld σ st ts d) = Some (mkWorld σ st ts d').
Proof.
  intros Hm Hb Ha. rewrite flush_second_render by done. cbn [heap app timers draws].
  rewrite effect_ai_off by (rewrite Ha; apply andb_false_r).
  cbn [fst snd option_list]. rewrite app_nil_r. destruct (_ || _); eauto.
Qed.

Lemma second_render_on rnd fuel p (σ : gmap nat Squares) st ts d :
  mode p = mode st → board p = board st → aiTurn p ≠ aiTurn st →
  flush fuel rnd (Some p) (mkWorld σ st ts d) =
    Some (mkWorld (effect_ai (rnd d) σ st).2 st
            (ts ++ option_list (effect_ai (rnd d) σ st).1) (S d)).
Proof.
  intros Hm Hb Ha. rewrite flush_second_render by done. cbn [heap app timers draws].
  assert (dep_changed aiTurn (Some p) st = true) as -> by by apply bool_decide_eq_true_2.
  done.
Qed.

Lemma ongoing_not_full (b : Squares) :
  well_formed b → calculateWinner b = None → ¬ full b.
Proof.
  intros Hwf Hc Hfull. apply (forallb_truthy_full b Hwf) in Hfull.
  unfold calculateWinner in Hc. rewrite Hfull in Hc. by destruct (scan_lines b lines).
Qed.

(** X18.  Against the automated player, an accepted click of the human puts
    X on the board; if that board is won or full, no timer is armed; if the
    game goes on, exactly one timer is armed, and its array is that board
    with O in one cell that was empty. *)
Theorem human_move_arms_reply rnd w i :
  reachable rnd w → i < 9 →
  mode (app w) = ai → game_over (app w) = false → xIsNext (app w) = true →
  sq (shown w) i = None →
  ∃ w', step rnd w (Click i) = Some w'
        ∧ shown w' = <[i := Some X]> (shown w)
        ∧ match calculateWinner (<[i := Some X]> (shown w)) with
          | Some _ => timers w' = timers w
          | None =>
              ∃ l k, timers w' = timers w ++ [l]
                     ∧ k < 9 ∧ sq (<[i := Some X]> (shown w)) k = None
                     ∧ read (heap w') l = <[k := Some O]> (<[i := Some X]> (shown w))
          end.
Proof.
  intros Hr Hi Hm Hg Hx He.
  destruct (reachable_invariant _ _ Hr) as [(Hok & [b Hl] & _) _].
  unfold shown in He |- *. rewrite (read_lookup _ _ _ Hl) in He |- *.
  assert (Hlen : length b = 9) by by eapply Hok.
  unfold step, render_budget. cbn [dispatch]. rewrite decide_True by done.
  rewrite (handleClick_accepts _ _ _ _ Hl Hg He (or_intror Hx)), Hx.
  rewrite js_set_in_range by lia.
  set (b' := <[i := Some X]> b). assert (Hwf' : well_formed b').
  { unfold well_formed, b'. by rewrite length_insert. }
  set (l1 := (spread (heap w) (board (app w))).1).
  assert (Hl1 : l1 ≠ board (app w)).
  { unfold l1, spread. apply fresh_differs. eauto. }
  set (σ1 := <[l1 := b']> (heap w)).
  cbn [negb apply_actions foldl apply_action with_app heap app timers draws mode board
       xIsNext aiTurn status].
  rewrite Hm. set (st1 := mkApp ai l1 false false (status (app w))).
  set (w1 := mkWorld σ1 st1 (timers w) (draws w)).
  assert (Hσ1 : σ1 !! l1 = Some b') by apply lookup_insert_eq.
  change (with_app _ st1) with w1.
  rewrite flush_unfold, (commit_same_mode_eq rnd (app w) w1) by (by rewrite Hm).
  assert (Hbc : dep_changed board (Some (app w)) (app w1) = true).
  { apply bool_decide_eq_true_2. cbn. by intros E. }
  rewrite Hbc, orb_true_r. cbn [orb fst snd]. cbn [w1 heap app timers draws].
  rewrite (effect_ai_off _ σ1 st1) by done. cbn [fst snd option_list]. rewrite app_nil_r.
  unfold effect_status. cbn [st1 board mode xIsNext]. rewrite (read_lookup _ _ _ Hσ1).
  assert (Hg1 : game_over st1 = false) by exact Hg. rewrite Hg1.
  destruct (calculateWinner b') as [r|] eqn:Hc.
  - unfold with_app, apply_actions.
    cbn [foldl apply_action heap app timers draws mode board xIsNext aiTurn status].
    match goal with
    | |- context [flush 3 rnd (Some st1) (mkWorld σ1 ?st ?ts ?d)] =>
        destruct (second_render_off rnd 3 st1 σ1 st ts d) as [d' ->]; [done..|]
    end.
    eexists. split; [reflexivity|]. split; [exact (read_lookup _ _ _ Hσ1) | done].
  - rewrite !bool_decide_eq_true_2 by done. cbn [andb orb negb].
    unfold with_app, apply_actions.
    cbn [foldl apply_action heap app timers draws mode board xIsNext aiTurn status].
    match goal with
    | |- context [flush 3 rnd (Some st1) (mkWorld σ1 ?st ?ts ?d)] =>
        set (st2 := st); rewrite (second_render_on rnd 3 st1 σ1 st2) by done
    end.
    set (r := rnd (S (draws w))).
    eexists. split; [reflexivity|]. unfold shown. cbn [heap app].
    pose proof (effect_ai_extends r σ1 st2 b' Hσ1) as Hsub.
    split; [apply read_lookup; by eapply lookup_weaken|].
    destruct (effect_ai_cases r σ1 st2 b' Hσ1)
      as [E | (l & k & E & _ & _ & _ & _ & Hk & Hek & _ & Hset)].
    + assert (Harm : is_Some (effect_ai r σ1 st2).1).
      { apply (effect_ai_arms r _ _ b'); try done. by apply ongoing_not_full. }
      rewrite E in Harm. by destruct Harm.
    + cbn [timers]. rewrite E. exists l, k. cbn [option_list]. split; [done|]. split; [done|].
      split; [done|]. rewrite (read_lookup _ _ _ Hset). apply js_set_in_range.
      unfold well_formed in Hwf'. lia.
Qed.

Lemma human_move_arms_reply_witness :
  ∃ w w', play first_choice [SelectMode ai] = Some w
          ∧ step first_choice w (Click 0) = Some w'
          ∧ shown w' = <[0 := Some X]> (shown w)
          ∧ match calculateWinner (<[0 := Some X]> (shown w)) with
            | Some _ => timers w' = timers w
            | None =>
                ∃ l k, timers w' = timers w ++ [l]
                       ∧ k < 9 ∧ sq (<[0 := Some X]> (shown w)) k = None
                       ∧ read (heap w') l = <[k := Some O]> (<[0 := Some X]> (shown w))
            end.
Proof.
  destruct (play first_choice [SelectMode ai]) as [w|] eqn:Hp; [|by vm_compute in Hp].
  pose proof (play_reachable _ _ _ Hp) as Hr.
  vm_compute in Hp. injection Hp as <-.
  eexists. destruct (human_move_arms_reply first_choice _ 0 Hr) as (w' & H);
    [lia | reflexivity | reflexivity | reflexivity | reflexivity |].
  exists w'. split; [reflexivity|]. exact H.
Defined.

(** What [App.test.js] looks for: after the first render every square is a
    button labelled "Empty square", and none is disabled. *)
Example mount_shows_empty_squares rnd :
  ∃ w, mount rnd = Some w
       ∧ Forall (λ v, sq_label v = "Empty square"%string ∧ sq_disabled v = false)
                (concat (view_board (render (heap w) (app w)))).
Proof.
  eexists. split; [vm_compute; reflexivity|].
  repeat (apply Forall_cons; split; [by split|]). apply Forall_nil_2.
Qed.
